(** * sequana_pipelines.variant_calling: the command-line entry point

    A shallow embedding of [src/sequana_pipelines/variant_calling/main.py]:
    the [Options] parser (an [argparse.ArgumentParser]), and [main], which
    parses the arguments, lets the pipeline manager stage the working
    directory, patches two fields of the configuration and hands over to the
    manager's teardown.

    Strings are Rocq strings: sequences of characters with code points
    below 256.  The interpreter's library functions the program calls
    ([argparse], [int], [os.path.abspath]) are embedded for that alphabet. *)

From Stdlib Require Import ZArith Ascii String List Bool Lia.
From stdpp Require Import base option list strings gmap.

Local Open Scope string_scope.
Local Open Scope Z_scope.

(** ** Python values *)

(** The values an option or a configuration leaf holds. *)
Inductive value : Type :=
| VNone
| VBool (b : bool)
| VInt (z : Z)
| VStr (s : string).

Definition value_eqb (v w : value) : bool :=
  match v, w with
  | VNone, VNone => true
  | VBool a, VBool b => Bool.eqb a b
  | VInt a, VInt b => Z.eqb a b
  | VStr a, VStr b => String.eqb a b
  | _, _ => false
  end.

(** The exceptions that reach [main]'s caller. *)
Inductive exn : Type :=
| AttributeError (object attribute : string)
| TypeError (message : string)
| ManagerError (message : string).

(** ** Strings *)

Module Str.

(** [s.startswith(p)] *)
Definition startswith (s p : string) : bool := String.prefix p s.

(** [c in s] *)
Fixpoint contains (c : ascii) (s : string) : bool :=
  match s with
  | EmptyString => false
  | String d s' => Ascii.eqb c d || contains c s'
  end.

(** [s.split(c, 1)]: the text before the first [c] and the text after it
    ([None] when [c] does not occur). *)
Fixpoint split1 (c : ascii) (s : string) : string * option string :=
  match s with
  | EmptyString => (EmptyString, None)
  | String d s' =>
      if Ascii.eqb c d then (EmptyString, Some s')
      else let '(h, t) := split1 c s' in (String d h, t)
  end.

(** [s.split(c)] *)
Fixpoint split (c : ascii) (s : string) : list string :=
  match s with
  | EmptyString => [EmptyString]
  | String d s' =>
      if Ascii.eqb c d then EmptyString :: split c s'
      else match split c s' with
           | h :: t => String d h :: t
           | [] => [String d EmptyString]
           end
  end.

(** [c.join(l)] *)
Fixpoint join (c : string) (l : list string) : string :=
  match l with
  | [] => EmptyString
  | [x] => x
  | x :: l' => x ++ c ++ join c l'
  end.

(** [s.endswith(c)] for a single character. *)
Fixpoint endswith (s : string) (c : ascii) : bool :=
  match s with
  | EmptyString => false
  | String d EmptyString => Ascii.eqb c d
  | String _ s' => endswith s' c
  end.

Definition is_digit (c : ascii) : bool :=
  let n := nat_of_ascii c in (48 <=? n)%nat && (n <=? 57)%nat.

Definition digit_value (c : ascii) : Z := Z.of_nat (nat_of_ascii c) - 48.

Fixpoint all_digits (s : string) : bool :=
  match s with
  | EmptyString => true
  | String c s' => is_digit c && all_digits s'
  end.

End Str.

(** ** [int(s)] *)

Module PyInt.

(** The characters [int] skips around the number: the ASCII white space
    and, among the other code points below 256, NEL and NBSP. *)
Definition is_space (c : ascii) : bool :=
  let n := nat_of_ascii c in
  ((9 <=? n)%nat && (n <=? 13)%nat) || (n =? 32)%nat || (n =? 133)%nat || (n =? 160)%nat.

Fixpoint lstrip (s : string) : string :=
  match s with
  | String c s' => if is_space c then lstrip s' else s
  | EmptyString => EmptyString
  end.

Fixpoint all_space (s : string) : bool :=
  match s with
  | EmptyString => true
  | String c s' => is_space c && all_space s'
  end.

(** Decimal digits with single underscores between them, then white space
    up to the end.  [acc] is the number read so far and [after_digit] says
    whether the previous character was a digit. *)
Fixpoint digits (acc : Z) (after_digit : bool) (s : string) : option Z :=
  match s with
  | EmptyString => if after_digit then Some acc else None
  | String c s' =>
      if Str.is_digit c then digits (10 * acc + Str.digit_value c) true s'
      else if Ascii.eqb c "_" then
        if after_digit then
          match s' with
          | String d _ => if Str.is_digit d then digits acc false s' else None
          | EmptyString => None
          end
        else None
      else if after_digit && all_space s then Some acc
      else None
  end.

(** [int(s)]: [None] stands for [ValueError]. *)
Definition int (s : string) : option Z :=
  match lstrip s with
  | String "+" s' => digits 0 false s'
  | String "-" s' => Z.opp <$> digits 0 false s'
  | s' => digits 0 false s'
  end.

End PyInt.

(** ** [os.path.abspath] (posixpath) *)

Module posixpath.

Definition sep : ascii := "/"%char.

Definition isabs (s : string) : bool := Str.startswith s "/".

(** [join(a, b)] *)
Definition join (a b : string) : string :=
  if Str.startswith b "/" then b
  else if String.eqb a "" || Str.endswith a sep then a ++ b
  else a ++ "/" ++ b.

(** The loop of [normpath] over the components; [new_comps] is kept in
    reverse, its head being the last component appended. *)
Fixpoint normalize (initial_slashes : nat) (comps new_comps : list string)
  : list string :=
  match comps with
  | [] => rev new_comps
  | comp :: comps' =>
      if String.eqb comp "" || String.eqb comp "." then
        normalize initial_slashes comps' new_comps
      else if negb (String.eqb comp "..")
              || (Nat.eqb initial_slashes 0 && match new_comps with [] => true | _ => false end)
              || match new_comps with last :: _ => String.eqb last ".." | [] => false end
      then normalize initial_slashes comps' (comp :: new_comps)
      else normalize initial_slashes comps' (tail new_comps)
  end.

Definition normpath (path : string) : string :=
  if String.eqb path "" then "."
  else
    let initial_slashes :=
      if Str.startswith path "/" then
        if Str.startswith path "//" && negb (Str.startswith path "///")
        then 2%nat else 1%nat
      else 0%nat in
    let comps := normalize initial_slashes (Str.split sep path) [] in
    let path := Str.join "/" comps in
    let path :=
      match initial_slashes with
      | 0%nat => path
      | 1%nat => "/" ++ path
      | _ => "//" ++ path
      end in
    if String.eqb path "" then "." else path.

(** [abspath(path)] in a process whose working directory is [cwd]. *)
Definition abspath (cwd path : string) : string :=
  normpath (if isabs path then path else join cwd path).

End posixpath.

(** ** [argparse]

    The part of [argparse.ArgumentParser] the program uses: optional
    arguments that store one converted string ([action='store'], the
    default), optional flags that store a constant ([store_true] and the
    like), and the help flag every parser gets.  No positional argument, no
    sub-parser and no mutually exclusive group is declared anywhere, so the
    strings that are neither an option nor its argument all end in
    [extras]. *)

Module argparse.

(** [type=]: absent (the string itself) or [int]. *)
Inductive arg_type : Type := type_None | type_int.

Inductive action_class : Type :=
| _StoreAction                      (* nargs=None: one argument *)
| _StoreConstAction (const : value) (* nargs=0 *)
| _HelpAction.                      (* nargs=0, prints the help and exits *)

(** [default = None] is [SUPPRESS]: no attribute is created. *)
Record Action : Type := {
  option_strings : list string;
  dest : string;
  action : action_class;
  default : option value;
  type : arg_type;
  choices : option (list value);
  required : bool
}.

Definition nargs (a : Action) : nat :=
  match action a with _StoreAction => 1 | _ => 0 end.

Record ArgumentParser : Type := {
  prog : string;
  _actions : list Action
}.

(** [Namespace]: attribute name to value. *)
Abbreviation Namespace := (gmap string value).

Inductive ArgumentError : Type :=
| ambiguous_option (arg_string : string) (matches : list string)
| expected_one_argument (a : Action)
| ignored_explicit_argument (a : Action) (explicit_arg : string)
| invalid_value (a : Action) (arg_string : string)
| invalid_choice (a : Action) (v : value)
| arguments_required (names : list string)
| unrecognized_arguments (argv : list string).

Inductive stream : Type := stdout | stderr.

Inductive output : Type :=
| usage_text (file : stream)
| help_text (file : stream)
| error_line (e : ArgumentError).

(** A call either returns or ends the process through [sys.exit]. *)
Inductive completion (A : Type) : Type :=
| Return (a : A)
| SystemExit (status : Z) (printed : list output).
Arguments Return {A} a.
Arguments SystemExit {A} status printed.

#[export] Instance completion_bind : MBind completion :=
  fun A B f m =>
    match m with
    | Return a => f a
    | SystemExit status printed => SystemExit status printed
    end.

(** [parser.exit(status)] after [print_help()]. *)
Definition print_help_and_exit {A} : completion A :=
  SystemExit 0 [help_text stdout].

(** [parser.error(message)]: the usage on stderr, then [exit(2, ...)].
    An [ArgumentError] raised while parsing is caught by
    [parse_known_args] and passed to [error] as well. *)
Definition error {A} (e : ArgumentError) : completion A :=
  SystemExit 2 [usage_text stderr; error_line e].

(** Python's [==] on the values: [True == 1] and [False == 0]. *)
Definition py_eq (v w : value) : bool :=
  match v, w with
  | VBool a, VInt b | VInt b, VBool a => Z.eqb (if a then 1 else 0) b
  | _, _ => value_eqb v w
  end.

(** [self._option_string_actions], in insertion order; an action is
    known by its index in [_actions]. *)
Definition _option_string_actions (p : ArgumentParser)
  : list (string * (nat * Action)) :=
  flat_map (fun ia => map (fun s => (s, ia)) (option_strings ia.2))
           (imap pair (_actions p)).

Fixpoint assoc {A} (s : string) (l : list (string * A)) : option A :=
  match l with
  | [] => None
  | (k, a) :: l' => if String.eqb k s then Some a else assoc s l'
  end.

Definition chomp_newline (s : string) : string :=
  match String.rev s with
  | String "010" r => String.rev r
  | _ => s
  end.

(** [_negative_number_matcher]: the regular expression
    [^-\d+$|^-\d*\.\d+$] ([$] also matches before a final newline). *)
Definition _negative_number_matcher (s : string) : bool :=
  match chomp_newline s with
  | String "-" r =>
      (negb (String.eqb r "") && Str.all_digits r)
      || match Str.split1 "." r with
         | (i, Some f) => Str.all_digits i && negb (String.eqb f "") && Str.all_digits f
         | (_, None) => false
         end
  | _ => false
  end.

Definition _has_negative_number_optionals (p : ArgumentParser) : bool :=
  existsb (fun e => _negative_number_matcher e.1) (_option_string_actions p).

Inductive option_tuple : Type :=
  OptionTuple (act : option (nat * Action)) (option_string : string)
              (explicit_arg : option string).

Definition second_is_dash (s : string) : bool :=
  match s with
  | String _ (String "-" _) => true
  | _ => false
  end.

Definition _get_option_tuples (p : ArgumentParser) (option_string : string)
  : list option_tuple :=
  if Str.startswith option_string "--" then
    let '(option_prefix, explicit_arg) := Str.split1 "=" option_string in
    flat_map (fun e => if Str.startswith e.1 option_prefix
                       then [OptionTuple (Some e.2) e.1 explicit_arg] else [])
             (_option_string_actions p)
  else if Str.startswith option_string "-" then
    let short_option_prefix := String.substring 0 2 option_string in
    let short_explicit_arg :=
      String.substring 2 (String.length option_string - 2) option_string in
    flat_map (fun e =>
                if String.eqb e.1 short_option_prefix
                then [OptionTuple (Some e.2) e.1 (Some short_explicit_arg)]
                else if Str.startswith e.1 option_string
                then [OptionTuple (Some e.2) e.1 None]
                else [])
             (_option_string_actions p)
  else [].

Definition tuple_option_string (t : option_tuple) : string :=
  match t with OptionTuple _ s _ => s end.

(** [None] is a positional string, [Some] an option (known or not). *)
Definition _parse_optional (p : ArgumentParser) (arg_string : string)
  : completion (option option_tuple) :=
  match arg_string with
  | EmptyString => Return None
  | String c rest =>
      if negb (Ascii.eqb c "-") then Return None
      else
        match assoc arg_string (_option_string_actions p) with
        | Some a => Return (Some (OptionTuple (Some a) arg_string None))
        | None =>
            if String.eqb rest "" then Return None
            else
              let split_match :=
                match Str.split1 "=" arg_string with
                | (option_string, Some explicit_arg) =>
                    match assoc option_string (_option_string_actions p) with
                    | Some a => Some (OptionTuple (Some a) option_string (Some explicit_arg))
                    | None => None
                    end
                | (_, None) => None
                end in
              match split_match with
              | Some t => Return (Some t)
              | None =>
                  match _get_option_tuples p arg_string with
                  | (_ :: _ :: _) as option_tuples =>
                      error (ambiguous_option arg_string
                               (map tuple_option_string option_tuples))
                  | [t] => Return (Some t)
                  | [] =>
                      if _negative_number_matcher arg_string
                         && negb (_has_negative_number_optionals p)
                      then Return None
                      else if Str.contains " " arg_string then Return None
                      else Return (Some (OptionTuple None arg_string None))
                  end
              end
        end
  end.

(** The pattern letter of an argument string: ['A'], ['-'] or ['O']. *)
Inductive pattern : Type :=
| A
| Dash
| O (t : option_tuple).

Fixpoint arg_strings_pattern (p : ArgumentParser) (arg_strings : list string)
  : completion (list (string * pattern)) :=
  match arg_strings with
  | [] => Return []
  | arg_string :: rest =>
      if String.eqb arg_string "--"
      then Return ((arg_string, Dash) :: map (fun s => (s, A)) rest)
      else
        option_tuple ← _parse_optional p arg_string;
        parts ← arg_strings_pattern p rest;
        Return ((arg_string, match option_tuple with
                             | None => A
                             | Some t => O t
                             end) :: parts)
  end.

Record state : Type := {
  namespace : Namespace;
  seen_actions : list nat;
  extras : list string
}.

Definition setattr (st : state) (name : string) (v : value) : state :=
  {| namespace := <[name := v]> (namespace st);
     seen_actions := seen_actions st;
     extras := extras st |}.

Definition add_seen (i : nat) (st : state) : state :=
  {| namespace := namespace st;
     seen_actions := i :: seen_actions st;
     extras := extras st |}.

Definition add_extra (s : string) (st : state) : state :=
  {| namespace := namespace st;
     seen_actions := seen_actions st;
     extras := extras st ++ [s] |}.

Definition _get_value (a : Action) (arg_string : string) : completion value :=
  match type a with
  | type_None => Return (VStr arg_string)
  | type_int =>
      match PyInt.int arg_string with
      | Some z => Return (VInt z)
      | None => error (invalid_value a arg_string)
      end
  end.

Definition _check_value (a : Action) (v : value) : completion unit :=
  match choices a with
  | Some l => if existsb (py_eq v) l then Return tt else error (invalid_choice a v)
  | None => Return tt
  end.

(** [take_action]: the action is recorded as seen, its argument is
    converted and checked, and the action is called.  A store action
    always receives the one string [_match_argument] counted.  The
    argument is taken as written, also the explicit argument [--] of
    [--opt=--]: interpreters that drop that string in [_get_values]
    (CPython before 3.13) store an empty list there, which is left out of
    this model. *)
Definition take_action (ia : nat * Action) (argument_strings : list string)
           (st : state) : completion state :=
  let st := add_seen ia.1 st in
  match action ia.2 with
  | _StoreAction =>
      match argument_strings with
      | [arg_string] =>
          v ← _get_value ia.2 arg_string;
          _ ← _check_value ia.2 v;
          Return (setattr st (dest ia.2) v)
      | _ => Return st
      end
  | _StoreConstAction const => Return (setattr st (dest ia.2) const)
  | _HelpAction => print_help_and_exit
  end.

Definition action_tuple : Type := (nat * Action) * list string * string.

Fixpoint take_actions (action_tuples : list action_tuple) (st : state)
  : completion state :=
  match action_tuples with
  | [] => Return st
  | (ia, args, _) :: rest => st' ← take_action ia args st; take_actions rest st'
  end.

(** [consume_optional] without explicit argument: the strings that follow
    must supply what [nargs] asks for.  The number returned is how many of
    them are used. *)
Definition match_following (ia : nat * Action) (option_string : string)
           (following : list (string * pattern))
  : completion (list action_tuple * bool) :=
  match nargs ia.2 with
  | 0%nat => Return ([(ia, [], option_string)], false)
  | _ =>
      match following with
      | (v, A) :: _ => Return ([(ia, [v], option_string)], true)
      | _ => error (expected_one_argument ia.2)
      end
  end.

(** [consume_optional] with an explicit argument, the [while True] loop:
    a single-dash flag hands the rest of its string to the next
    single-dash option. *)
Fixpoint match_explicit (p : ArgumentParser) (ia : nat * Action)
         (option_string explicit_arg : string)
         (following : list (string * pattern)) {struct explicit_arg}
  : completion (list action_tuple * bool) :=
  match nargs ia.2 with
  | 0%nat =>
      if negb (second_is_dash option_string) then
        match option_string, explicit_arg with
        | String char _, String c new_explicit_arg =>
            let option_string' := String char (String c EmptyString) in
            match assoc option_string' (_option_string_actions p) with
            | Some ia' =>
                '(tuples, used) ←
                  match new_explicit_arg with
                  | EmptyString => match_following ia' option_string' following
                  | _ => match_explicit p ia' option_string' new_explicit_arg following
                  end;
                Return ((ia, [], option_string) :: tuples, used)
            | None => error (ignored_explicit_argument ia.2 explicit_arg)
            end
        | _, _ => error (ignored_explicit_argument ia.2 explicit_arg)
        end
      else error (ignored_explicit_argument ia.2 explicit_arg)
  | _ => Return ([(ia, [explicit_arg], option_string)], false)
  end.

(** The loop of [_parse_known_args] over the argument strings. *)
Fixpoint consume (p : ArgumentParser) (items : list (string * pattern))
         (st : state) : completion state :=
  match items with
  | [] => Return st
  | (s, O (OptionTuple (Some ia) option_string explicit_arg)) :: items' =>
      '(tuples, used) ←
        match explicit_arg with
        | Some e => match_explicit p ia option_string e items'
        | None => match_following ia option_string items'
        end;
      st' ← take_actions tuples st;
      if used : bool then
        match items' with
        | _ :: items'' => consume p items'' st'
        | [] => Return st'
        end
      else consume p items' st'
  | (s, _) :: items' => consume p items' (add_extra s st)
  end.

(** [_get_action_name] of an optional. *)
Definition _get_action_name (a : Action) : string :=
  Str.join "/" (option_strings a).

(** The loop over [self._actions] after the strings are consumed: the
    required actions that were not seen are collected, and a string
    default still in place is converted. *)
Fixpoint unseen_actions (actions : list (nat * Action)) (seen : list nat)
         (ns : Namespace) (required_actions : list string)
  : completion (Namespace * list string) :=
  match actions with
  | [] => Return (ns, required_actions)
  | (i, a) :: actions' =>
      if existsb (Nat.eqb i) seen then unseen_actions actions' seen ns required_actions
      else if required a
      then unseen_actions actions' seen ns (required_actions ++ [_get_action_name a])
      else
        match default a, ns !! dest a with
        | Some (VStr d), Some (VStr d') =>
            if String.eqb d d' then
              v ← _get_value a d;
              unseen_actions actions' seen (<[dest a := v]> ns) required_actions
            else unseen_actions actions' seen ns required_actions
        | _, _ => unseen_actions actions' seen ns required_actions
        end
  end.

(** The defaults [parse_known_args] puts in the fresh namespace: an action
    sets its default when the attribute is not there yet. *)
Definition with_default (ns : Namespace) (a : Action) : Namespace :=
  match default a, ns !! dest a with
  | Some d, None => <[dest a := d]> ns
  | _, _ => ns
  end.

Definition initial_namespace (p : ArgumentParser) : Namespace :=
  foldl with_default ∅ (_actions p).

Definition parse_known_args (p : ArgumentParser) (args : list string)
  : completion (Namespace * list string) :=
  let st := {| namespace := initial_namespace p;
               seen_actions := [];
               extras := [] |} in
  items ← arg_strings_pattern p args;
  st ← consume p items st;
  '(ns, required_actions) ←
    unseen_actions (imap pair (_actions p)) (seen_actions st) (namespace st) [];
  match required_actions with
  | [] => Return (ns, extras st)
  | _ => error (arguments_required required_actions)
  end.

Definition parse_args (p : ArgumentParser) (args : list string)
  : completion Namespace :=
  '(ns, argv) ← parse_known_args p args;
  match argv with
  | [] => Return ns
  | _ => error (unrecognized_arguments argv)
  end.

(** [ArgumentParser(prog=prog, ...)]: the help flag is added first. *)
Definition help_action : Action :=
  {| option_strings := ["-h"; "--help"];
     dest := "help";
     action := _HelpAction;
     default := None;
     type := type_None;
     choices := None;
     required := false |}.

Definition new (prog : string) : ArgumentParser :=
  {| prog := prog; _actions := [help_action] |}.

(** [parser.add_argument(...)] (an argument group adds to its parser). *)
Definition add_argument (a : Action) (p : ArgumentParser) : ArgumentParser :=
  {| prog := prog p; _actions := _actions p ++ [a] |}.

End argparse.

(** ** The configuration object *)

(** Modelled from the spec: the configuration object [manager.config.config]
    belongs to the pipeline manager of package [sequana], which is not part
    of this repository.  The spec describes it as a nested key-value
    structure mirroring the YAML file, reached by attribute access, whose
    fields are created at run time when they are assigned.  Reading an
    attribute that is not there raises [AttributeError], and so does
    assigning an attribute of a scalar or of a sequence. *)
#[local] Set Warnings "-register-all".
Inductive node : Type :=
| Scalar (v : value)
| Sequence (items : list node)
| Mapping (fields : gmap string node).

(** The value at a dotted path. *)
Fixpoint get_path (path : list string) (n : node) : option node :=
  match path with
  | [] => Some n
  | name :: path' =>
      match n with
      | Mapping fields => fields !! name ≫= get_path path'
      | _ => None
      end
  end.

(** ** The program *)

Import argparse.

(** What [main] asks of the pipeline manager, in order. *)
Inductive call : Type :=
| PipelineManager (options : Namespace) (name : string)
| setup
| teardown (config : gmap string node).

(** How a run of [main] ends. *)
Inductive termination : Type :=
| returned
| sys_exit (status : Z)
| uncaught (e : exn).

Record run : Type := {
  calls : list call;
  printed : list output;
  config : option (gmap string node);
  ending : termination
}.

(** The arguments [Options.__init__] declares itself. *)

(** [self.add_argument("--run-mode", dest="run_mode", required=True,
    choices=['local', 'slurm'], ...)] *)
Definition run_mode_argument : Action :=
  {| option_strings := ["--run-mode"];
     dest := "run_mode";
     action := _StoreAction;
     default := Some VNone;
     type := type_None;
     choices := Some [VStr "local"; VStr "slurm"];
     required := true |}.

(** [pipeline_group.add_argument("--output-directory", dest="outdir",
    default="fastqc", ...)] *)
Definition output_directory_argument : Action :=
  {| option_strings := ["--output-directory"];
     dest := "outdir";
     action := _StoreAction;
     default := Some (VStr "fastqc");
     type := type_None;
     choices := None;
     required := false |}.

(** [pipeline_group.add_argument("--fastq-directory",
    dest="fastq_directory", default=".", required=True, ...)] *)
Definition fastq_directory_argument : Action :=
  {| option_strings := ["--fastq-directory"];
     dest := "fastq_directory";
     action := _StoreAction;
     default := Some (VStr ".");
     type := type_None;
     choices := None;
     required := true |}.

(** [pipeline_group.add_argument("--input-pattern", dest="input_pattern",
    default="*fastq.gz", ...)] *)
Definition input_pattern_argument : Action :=
  {| option_strings := ["--input-pattern"];
     dest := "input_pattern";
     action := _StoreAction;
     default := Some (VStr "*fastq.gz");
     type := type_None;
     choices := None;
     required := false |}.

(** [pipeline_group.add_argument("--threads", dest="threads", default=4,
    type=int)] *)
Definition threads_argument : Action :=
  {| option_strings := ["--threads"];
     dest := "threads";
     action := _StoreAction;
     default := Some (VInt 4);
     type := type_int;
     choices := None;
     required := false |}.

Section variant_calling.

(** The option groups of [sequana.pipelines_common]: the arguments their
    [add_options] adds to a parser. *)
Variable SlurmOptions SnakemakeOptions : list Action.

(** The pipeline manager of [sequana.pipelines_common]: the configuration
    [setup] stages for the parsed options, and the exception a call to the
    manager raises, if any. *)
Variable staged_config : Namespace → gmap string node.
Variable manager_raises : call → option exn.

Definition add_options (group : list Action) (parser : ArgumentParser)
  : ArgumentParser :=
  foldl (fun p a => add_argument a p) parser group.

(** [Options.__init__] *)
Definition Options (prog : string) : ArgumentParser :=
  let self := argparse.new prog in
  let self := add_options SlurmOptions self in
  let self := add_options SnakemakeOptions self in
  let self := add_argument run_mode_argument self in
  let pipeline_group := self in
  let pipeline_group := add_argument output_directory_argument pipeline_group in
  let pipeline_group := add_argument fastq_directory_argument pipeline_group in
  let pipeline_group := add_argument input_pattern_argument pipeline_group in
  add_argument threads_argument pipeline_group.

Definition NAME : string := "variant_calling".

(** [cfg.input_directory = os.path.abspath(options.bcl_directory)] *)
Definition set_input_directory (options : Namespace) (cwd : string)
           (cfg : gmap string node) : exn + gmap string node :=
  match options !! "bcl_directory" with
  | None => inl (AttributeError "Namespace" "bcl_directory")
  | Some (VStr path) =>
      inr (<["input_directory" := Scalar (VStr (posixpath.abspath cwd path))]> cfg)
  | Some _ => inl (TypeError "expected str, bytes or os.PathLike object")
  end.

(** [cfg.bcl2fastq.threads = options.threads]: the right-hand side is
    evaluated first, then [cfg.bcl2fastq], then the attribute is set. *)
Definition set_threads (options : Namespace) (cfg : gmap string node)
  : exn + gmap string node :=
  match options !! "threads" with
  | None => inl (AttributeError "Namespace" "threads")
  | Some threads =>
      match cfg !! "bcl2fastq" with
      | None => inl (AttributeError "AttrDict" "bcl2fastq")
      | Some (Mapping bcl2fastq) =>
          inr (<["bcl2fastq" := Mapping (<["threads" := Scalar threads]> bcl2fastq)]> cfg)
      | Some _ => inl (AttributeError "bcl2fastq" "threads")
      end
  end.

(** Lines 89 to 91 of [main]: the configuration as the patch leaves it in
    memory, and the exception that interrupted it, if any. *)
Definition patch (options : Namespace) (cwd : string) (cfg : gmap string node)
  : gmap string node * option exn :=
  match set_input_directory options cwd cfg with
  | inl e => (cfg, Some e)
  | inr cfg1 =>
      match set_threads options cfg1 with
      | inl e => (cfg1, Some e)
      | inr cfg2 => (cfg2, None)
      end
  end.

(** [main(args)] in a process started with [sys_argv] in directory [cwd]. *)
Definition main (sys_argv : list string) (cwd : string)
           (args : option (list string)) : run :=
  let args := match args with None => sys_argv | Some args => args end in
  match parse_args (Options NAME) (drop 1 args) with
  | SystemExit status printed =>
      {| calls := []; printed := printed; config := None;
         ending := sys_exit status |}
  | Return options =>
      let new := PipelineManager options NAME in
      match manager_raises new with
      | Some e =>
          {| calls := [new]; printed := []; config := None; ending := uncaught e |}
      | None =>
          match manager_raises setup with
          | Some e =>
              {| calls := [new; setup]; printed := []; config := None;
                 ending := uncaught e |}
          | None =>
              match patch options cwd (staged_config options) with
              | (cfg, Some e) =>
                  {| calls := [new; setup]; printed := []; config := Some cfg;
                     ending := uncaught e |}
              | (cfg, None) =>
                  {| calls := [new; setup; teardown cfg]; printed := [];
                     config := Some cfg;
                     ending := match manager_raises (teardown cfg) with
                               | Some e => uncaught e
                               | None => returned
                               end |}
              end
          end
      end
  end.

End variant_calling.

(** ** Notions used in the statements *)

(** An argument string names an option when the text before its first [=]
    is the option string or an abbreviation of it with at least one
    character after the two dashes. *)
Definition abbreviates (option_string arg_string : string) : bool :=
  let written := (Str.split1 "=" arg_string).1 in
  (3 <=? String.length written)%nat && Str.startswith option_string written.

(** The argument list gives the option. *)
Definition gives (option_string : string) (args : list string) : bool :=
  existsb (abbreviates option_string) args.

Fixpoint distinct (l : list string) : bool :=
  match l with
  | [] => true
  | s :: l' => negb (existsb (String.eqb s) l') && distinct l'
  end.

(** [_check_conflict] lets [add_argument] raise when an option string is
    declared twice; a parser that was built has none. *)
Definition conflict_free (p : ArgumentParser) : bool :=
  distinct (map fst (_option_string_actions p)).

Definition pipeline_dests : list string :=
  ["run_mode"; "outdir"; "fastq_directory"; "input_pattern"; "threads"].

(** What the statements ask of the two option groups: the parser can be
    built, and no argument of theirs writes an attribute of the pipeline
    group or of [--run-mode]. *)
Definition groups_ok (SlurmOptions SnakemakeOptions : list Action) : bool :=
  conflict_free (Options SlurmOptions SnakemakeOptions NAME)
  && forallb (fun a => negb (existsb (String.eqb (dest a)) pipeline_dests))
             (SlurmOptions ++ SnakemakeOptions).

(** No argument of the two groups writes an attribute [bcl_directory]. *)
Definition no_bcl_directory (SlurmOptions SnakemakeOptions : list Action) : bool :=
  forallb (fun a => negb (String.eqb (dest a) "bcl_directory"))
          (SlurmOptions ++ SnakemakeOptions).

(** The paths the patch assigns. *)
Definition patched_paths : list (list string) :=
  [["input_directory"]; ["bcl2fastq"; "threads"]].

(** A path the patch has nothing to do with: it is neither at or below a
    patched path nor a container of one. *)
Definition untouched (path : list string) : Prop :=
  ∀ q, q ∈ patched_paths → ¬ q `prefix_of` path ∧ ¬ path `prefix_of` q.

(** The two patched fields of a configuration. *)
Definition patched_fields (cfg : gmap string node) : option node * option node :=
  (cfg !! "input_directory", get_path ["bcl2fastq"; "threads"] (Mapping cfg)).

(** The strings [main] passes to the parser: [args[1:]]. *)
Definition argument_list (sys_argv : list string) (args : option (list string))
  : list string :=
  drop 1 (match args with None => sys_argv | Some args => args end).


(** A component of a normalized path: not empty, not [.], not [..], and
    without a slash. *)
Definition component (c : string) : Prop :=
  c ≠ "" ∧ c ≠ "." ∧ c ≠ ".." ∧ Str.contains "/" c = false.


(** The arguments of the two groups can be left out: none is required, and
    a string default of an integer argument is one [int] accepts. *)
Definition optional_groups (SlurmOptions SnakemakeOptions : list Action) : bool :=
  forallb (λ a, negb (required a)
                && match type a, default a with
                   | type_int, Some (VStr d) =>
                       match PyInt.int d with Some _ => true | None => false end
                   | _, _ => true
                   end)
          (SlurmOptions ++ SnakemakeOptions).

(** No option string of the two groups holds an equals sign. *)
Definition no_equals_sign (SlurmOptions SnakemakeOptions : list Action) : bool :=
  forallb (λ a, forallb (λ o, negb (Str.contains "=" o)) (option_strings a))
          (SlurmOptions ++ SnakemakeOptions).

(** ** Notions used in the proofs *)

(** How a call of the parser can leave the process: the help text and
    status 0, or the usage, an error and status 2. *)
Definition exit_shape {B} (c : completion B) : Prop :=
  match c with
  | Return _ => True
  | SystemExit status printed =>
      (status = 0 ∧ printed = [help_text stdout])
      ∨ (status = 2 ∧ ∃ e, printed = [usage_text stderr; error_line e])
  end.

(** The strings the loop hands to an action are as many as its [nargs]. *)
Definition args_ok (ia : nat * Action) (args : list string) : Prop :=
  match nargs ia.2 with
  | 0%nat => args = []
  | _ => ∃ s, args = [s]
  end.

(** The action an argument string resolved to, if any, satisfies [Q]. *)
Definition item_Q (Q : nat * Action → Prop) (item : string * pattern) : Prop :=
  match item.2 with
  | O (OptionTuple (Some ia) _ _) => Q ia
  | _ => True
  end.

(** The list does not start with a plain argument. *)
Definition not_argument (items : list (string * pattern)) : Prop :=
  match items with
  | (_, A) :: _ => False
  | _ => True
  end.

(** A long option string: two dashes, something after them, no [=]. *)
Definition long_option (s : string) : bool :=
  Str.startswith s "--" && (3 <=? String.length s)%nat && negb (Str.contains "=" s).

(** The parser has two long options at least, so that [--] alone is not an
    abbreviation. *)
Definition two_long_options (p : ArgumentParser) : Prop :=
  (2 ≤ length (List.filter (λ e, Str.startswith e.1 "--")
                 (_option_string_actions p)))%nat.

(** The arguments [Options] adds after the two groups, in order. *)
Definition pipeline_arguments : list Action :=
  [run_mode_argument; output_directory_argument; fastq_directory_argument;
   input_pattern_argument; threads_argument].

(** The state [parse_known_args] starts the loop in. *)
Definition start (p : ArgumentParser) : state :=
  {| namespace := initial_namespace p; seen_actions := []; extras := [] |}.

(** An action of the parser, with its index. *)
Definition declared (p : ArgumentParser) (ia : nat * Action) : Prop :=
  _actions p !! ia.1 = Some ia.2.

(** An action of the parser that is not the one at index [i]. *)
Definition other (p : ArgumentParser) (i : nat) (ia : nat * Action) : Prop :=
  declared p ia ∧ ia.1 ≠ i.

(** The slashes a normalized absolute path starts with. *)
Definition slashes (n : nat) : string :=
  match n with 0%nat => "" | 1%nat => "/" | _ => "//" end.

(** The default of the action, when it is a string, can be converted. *)
Definition convertible (a : Action) : Prop :=
  ∀ d, default a = Some (VStr d) → ∃ v, _get_value a d = Return v.

(** ** An instance for the examples

    Two small option groups (a queue name; a number of jobs and a flag), a
    manager that never raises and a staged configuration. *)
Module Example.

Definition SlurmOptions : list Action :=
  [ {| option_strings := ["--slurm-queue"];
       dest := "slurm_queue";
       action := _StoreAction;
       default := Some (VStr "common");
       type := type_None;
       choices := None;
       required := false |} ].

Definition SnakemakeOptions : list Action :=
  [ {| option_strings := ["--jobs"];
       dest := "jobs";
       action := _StoreAction;
       default := Some (VInt 4);
       type := type_None;
       choices := None;
       required := false |};
    {| option_strings := ["--force"];
       dest := "force";
       action := _StoreConstAction (VBool true);
       default := Some (VBool false);
       type := type_None;
       choices := None;
       required := false |} ].

Definition template : gmap string node :=
  {[ "input_directory" := Scalar (VStr "");
     "input_pattern" := Scalar (VStr "*fastq.gz");
     "bcl2fastq" := Mapping {[ "threads" := Scalar (VInt 1);
                               "options" := Scalar (VStr "") ]} ]}.

Definition staged_config (options : Namespace) : gmap string node := template.

Definition manager_raises (c : call) : option exn := None.

Definition parser : ArgumentParser := Options SlurmOptions SnakemakeOptions NAME.

Definition run_main (args : list string) : run :=
  main SlurmOptions SnakemakeOptions staged_config manager_raises
       [] "/home/user" (Some args).

End Example.

(** An accepted argument list, with the program name first. *)
Definition accepted : list string :=
  ["variant_calling"; "--fastq-directory"; "/data/run1"; "--run-mode"; "local";
   "--threads"; "8"].

(** A staged configuration whose section [bcl2fastq] has no field
    [threads]. *)
Definition no_thread_field (options : Namespace) : gmap string node :=
  {[ "input_directory" := Scalar (VStr ""); "bcl2fastq" := Mapping ∅ ]}.

(** A namespace that has the attribute line 90 reads. *)
Definition patched_options : Namespace :=
  {[ "bcl_directory" := VStr "data/run1"; "threads" := VInt 8 ]}.

(** ** Facts about the parser *)

Section argparse_facts.

Context (p : ArgumentParser).

Lemma assoc_Some {B} s (l : list (string * B)) b : assoc s l = Some b → (s, b) ∈ l.
Proof.
  induction l as [|[k c] l IH]; simpl; [done|].
  destruct (String.eqb k s) eqn:E.
  - intros [= ->]. apply String.eqb_eq in E as ->. left.
  - intros H. right. auto.
Qed.

Lemma table_entry s ia :
  (s, ia) ∈ _option_string_actions p →
  _actions p !! ia.1 = Some ia.2 ∧ s ∈ option_strings ia.2.
Proof.
  unfold _option_string_actions.
  rewrite list_elem_of_In, in_flat_map. intros [x [Hx Hs]].
  apply in_map_iff in Hs as [s' [[= <- <-] Hs']].
  apply list_elem_of_In, elem_of_lookup_imap in Hx as (i & a & -> & Hl).
  split; [done|]. by apply list_elem_of_In.
Qed.

(** *** How a call can leave the process *)

Lemma shape_error {B} e : exit_shape (@error B e).
Proof. right. eauto. Qed.

Lemma shape_help {B} : exit_shape (@print_help_and_exit B).
Proof. by left. Qed.

Lemma shape_bind {B C} (m : completion B) (f : B → completion C) :
  exit_shape m → (∀ b, exit_shape (f b)) → exit_shape (m ≫= f).
Proof. destruct m; simpl; auto. Qed.

Ltac shape :=
  repeat first
    [ exact I
    | apply shape_error
    | apply shape_help
    | apply shape_bind; [|intros ?]
    | match goal with
      | |- exit_shape (match ?x with _ => _ end) => destruct x eqn:?
      | |- exit_shape (let '(_, _) := ?x in _) => destruct x eqn:?
      end ].

Lemma shape_get_value a s : exit_shape (_get_value a s).
Proof. unfold _get_value. shape. Qed.

Lemma shape_check_value a v : exit_shape (_check_value a v).
Proof. unfold _check_value. shape. Qed.

Lemma shape_take_action ia args st : exit_shape (take_action ia args st).
Proof.
  unfold take_action. shape; auto using shape_get_value, shape_check_value.
Qed.

Lemma shape_take_actions tuples st : exit_shape (take_actions tuples st).
Proof.
  revert st. induction tuples as [|[[ia args] s] l IH]; intros st; simpl; [done|].
  apply shape_bind; auto using shape_take_action.
Qed.

Lemma shape_match_following ia s following :
  exit_shape (match_following ia s following).
Proof. unfold match_following. shape. Qed.

Lemma shape_match_explicit ia s e following :
  exit_shape (match_explicit p ia s e following).
Proof.
  revert ia s. induction e as [|c e IH]; intros ia s; simpl.
  - shape.
  - destruct (nargs ia.2); [|done].
    destruct (negb (second_is_dash s)); [|apply shape_error].
    destruct s; [apply shape_error|].
    destruct (assoc _ _); [|apply shape_error].
    apply shape_bind; [|intros [??]; done].
    destruct e; [apply shape_match_following|apply IH].
Qed.

(** The loop [consume] recurses on the tail of its list or on the tail of
    that tail: induction follows it. *)
Lemma items_ind {B} (P : list B → Prop) :
  P [] →
  (∀ x l, P l → (∀ y l', l = y :: l' → P l') → P (x :: l)) →
  ∀ l, P l.
Proof.
  intros Hnil Hcons l.
  enough (P l ∧ P (tail l)) by tauto.
  induction l as [|x l [IH1 IH2]]; [done|].
  split; [|done]. apply Hcons; [done|]. by intros y l' ->.
Qed.

Lemma consume_cons s pat items st :
  consume p ((s, pat) :: items) st =
  match pat with
  | O (OptionTuple (Some ia) option_string explicit_arg) =>
      '(tuples, used) ←
        match explicit_arg with
        | Some e => match_explicit p ia option_string e items
        | None => match_following ia option_string items
        end;
      st' ← take_actions tuples st;
      if used : bool then
        match items with
        | _ :: items'' => consume p items'' st'
        | [] => Return st'
        end
      else consume p items st'
  | _ => consume p items (add_extra s st)
  end.
Proof. by destruct pat as [| |[[?|] ??]]. Qed.

Lemma shape_consume items st : exit_shape (consume p items st).
Proof.
  revert st. induction items as [|[s pat] items IH1 IH2] using items_ind;
    intros st; [done|].
  rewrite consume_cons.
  destruct pat as [| |[[ia|] os e]]; try apply IH1.
  apply shape_bind.
  { destruct e; auto using shape_match_explicit, shape_match_following. }
  intros [tuples used]. apply shape_bind; [apply shape_take_actions|].
  intros st'. destruct used; [|apply IH1].
  destruct items as [|y items'']; [done|]. by eapply IH2.
Qed.

Lemma shape_parse_optional s : exit_shape (_parse_optional p s).
Proof. unfold _parse_optional. shape. Qed.

Lemma shape_arg_strings_pattern args : exit_shape (arg_strings_pattern p args).
Proof.
  induction args as [|s args IH]; simpl; [done|].
  destruct (String.eqb s "--"); [done|].
  apply shape_bind; [apply shape_parse_optional|]. intros t.
  apply shape_bind; [done|]. by intros ?.
Qed.

Lemma shape_unseen_actions actions seen ns required_actions :
  exit_shape (unseen_actions actions seen ns required_actions).
Proof.
  revert ns required_actions.
  induction actions as [|[i a] actions IH]; intros ns req; simpl; [done|].
  destruct (existsb _ seen); [done|]. destruct (required a); [done|].
  destruct (default a) as [[| | |d]|]; try done.
  destruct (ns !! dest a) as [[| | |d']|]; try done.
  destruct (String.eqb d d'); [|done].
  apply shape_bind; [apply shape_get_value|done].
Qed.

Lemma shape_parse_known_args args : exit_shape (parse_known_args p args).
Proof.
  unfold parse_known_args.
  apply shape_bind; [apply shape_arg_strings_pattern|]. intros items.
  apply shape_bind; [apply shape_consume|]. intros st.
  apply shape_bind; [apply shape_unseen_actions|]. intros [ns [|??]]; [done|].
  apply shape_error.
Qed.

(** A call of [parse_args] that does not return printed the help and left
    with status 0, or printed the usage and an error and left with
    status 2. *)
Lemma shape_parse_args args : exit_shape (parse_args p args).
Proof.
  unfold parse_args. apply shape_bind; [apply shape_parse_known_args|].
  intros [ns [|??]]; [done|]. apply shape_error.
Qed.

Lemma bind_Return {B C} (m : completion B) (f : B → completion C) c :
  m ≫= f = Return c → ∃ b, m = Return b ∧ f b = Return c.
Proof. destruct m; [eauto|done]. Qed.

(** *** Invariants of the loop

    [Inv] holds of the parser state after the loop when it held before,
    every action the loop takes keeps it, and every action a string of the
    list resolves to is one of those ([Q]). *)
Section invariant.

Context (Inv : state → Prop) (Q : nat * Action → Prop).
Hypothesis Inv_extra : ∀ st s, Inv st → Inv (add_extra s st).
Hypothesis Inv_action : ∀ ia args st st',
  Q ia → args_ok ia args → Inv st → take_action ia args st = Return st' → Inv st'.
Hypothesis Q_short : ∀ c c' ia,
  assoc (String c (String c' "")) (_option_string_actions p) = Some ia → Q ia.

Lemma match_following_Q ia s following tuples used :
  Q ia → match_following ia s following = Return (tuples, used) →
  Forall (λ t : action_tuple, Q t.1.1 ∧ args_ok t.1.1 t.1.2) tuples.
Proof.
  unfold match_following, args_ok. intros HQ.
  destruct (nargs ia.2) eqn:Hn.
  { intros [= <- <-]. repeat constructor; [done|]. simpl. by rewrite Hn. }
  destruct following as [|[v [| |]] ?]; try done.
  intros [= <- <-]. repeat constructor; [done|]. simpl. rewrite Hn. eauto.
Qed.

Lemma match_explicit_Q ia s e following tuples used :
  Q ia → match_explicit p ia s e following = Return (tuples, used) →
  Forall (λ t : action_tuple, Q t.1.1 ∧ args_ok t.1.1 t.1.2) tuples.
Proof.
  assert (∀ ia s e, Q ia → nargs ia.2 ≠ 0%nat →
            Forall (λ t : action_tuple, Q t.1.1 ∧ args_ok t.1.1 t.1.2)
                   [(ia, [e], s)]) as Hone.
  { clear. intros ia s e HQ Hn. repeat constructor; [done|].
    unfold args_ok. simpl. destruct (nargs ia.2); [done|eauto]. }
  revert ia s tuples used. induction e as [|c e IH]; intros ia s tuples used HQ; simpl.
  - destruct (nargs ia.2) eqn:Hn.
    + destruct (negb _); [|done]. by destruct s.
    + intros [= <- <-]. apply Hone; [done|]. by rewrite Hn.
  - destruct (nargs ia.2) eqn:Hn;
      [|intros [= <- <-]; apply Hone; [done|by rewrite Hn]].
    destruct (negb (second_is_dash s)); [|done].
    destruct s as [|char s]; [done|].
    destruct (assoc _ _) as [ia'|] eqn:Hassoc; [|done].
    intros H. apply bind_Return in H as ([tuples' used'] & H & [= <- <-]).
    constructor.
    { split; [done|]. unfold args_ok. simpl. by rewrite Hn. }
    apply Q_short in Hassoc.
    destruct e; [by eapply match_following_Q|by eapply IH].
Qed.

Lemma take_actions_inv tuples st st' :
  Forall (λ t : action_tuple, Q t.1.1 ∧ args_ok t.1.1 t.1.2) tuples →
  Inv st → take_actions tuples st = Return st' → Inv st'.
Proof.
  intros HQ. revert st. induction HQ as [|[[ia args] s] l HQ _ IH]; intros st HI; simpl.
  - by intros [= <-].
  - intros H. apply bind_Return in H as (st1 & H1 & H2).
    destruct HQ as [HQ Hargs]. eauto.
Qed.

Lemma consume_inv items st st' :
  Forall (item_Q Q) items → Inv st → consume p items st = Return st' → Inv st'.
Proof.
  revert st. induction items as [|[s pat] items IH1 IH2] using items_ind;
    intros st HQ HI.
  { by intros [= <-]. }
  apply Forall_cons in HQ as [HQ1 HQ].
  rewrite consume_cons.
  destruct pat as [| |[[ia|] os e]]; try (apply IH1; by auto).
  intros H. apply bind_Return in H as ([tuples used] & H1 & H).
  apply bind_Return in H as (st1 & H2 & H).
  assert (Inv st1).
  { eapply take_actions_inv; [|done..]. unfold item_Q in HQ1; simpl in HQ1.
    destruct e; [by eapply match_explicit_Q|by eapply match_following_Q]. }
  destruct used; [|by eapply IH1].
  destruct items as [|y items'']; [by injection H as <-|].
  apply Forall_cons in HQ as [_ HQ]. by eapply IH2.
Qed.

End invariant.

(** *** The loop on a list cut before an option *)

Lemma match_following_app ia s l X :
  not_argument X → match_following ia s (l ++ X) = match_following ia s l.
Proof.
  unfold match_following. intros HX. destruct (nargs ia.2); [done|].
  destruct l as [|[v pat] l]; [|done]. simpl.
  by destruct X as [|[v [| |]] X].
Qed.

Lemma match_explicit_app ia s e l X :
  not_argument X → match_explicit p ia s e (l ++ X) = match_explicit p ia s e l.
Proof.
  intros HX. revert ia s. induction e as [|c e IH]; intros ia s; simpl; [done|].
  destruct (nargs ia.2); [|done].
  destruct (negb (second_is_dash s)); [|done].
  destruct s as [|char s]; [done|].
  destruct (assoc _ _) as [ia'|]; [|done].
  destruct e; [by rewrite match_following_app|by rewrite IH].
Qed.

Lemma match_following_used ia s l tuples :
  match_following ia s l = Return (tuples, true) → ∃ v l', l = (v, A) :: l'.
Proof.
  unfold match_following. destruct (nargs ia.2); [done|].
  destruct l as [|[v [| |]] l']; try done. eauto.
Qed.

Lemma match_explicit_used ia s e l tuples :
  match_explicit p ia s e l = Return (tuples, true) → ∃ v l', l = (v, A) :: l'.
Proof.
  revert ia s tuples. induction e as [|c e IH]; intros ia s tuples; simpl.
  - destruct (nargs ia.2); [|done]. destruct (negb _); [|done]. by destruct s.
  - destruct (nargs ia.2); [|done].
    destruct (negb (second_is_dash s)); [|done].
    destruct s as [|char s]; [done|].
    destruct (assoc _ _) as [ia'|]; [|done].
    intros H. apply bind_Return in H as ([tuples' used'] & H & [= <- ->]).
    destruct e; [by eapply match_following_used|by eapply IH].
Qed.

Lemma consume_app l X st :
  not_argument X → consume p (l ++ X) st = consume p l st ≫= consume p X.
Proof.
  intros HX. revert st.
  induction l as [|[s pat] l IH1 IH2] using items_ind; intros st; [done|].
  rewrite <- app_comm_cons, !consume_cons.
  destruct pat as [| |[[ia|] os e]]; try apply IH1.
  assert (match e with
          | Some e => match_explicit p ia os e (l ++ X)
          | None => match_following ia os (l ++ X)
          end = match e with
                | Some e => match_explicit p ia os e l
                | None => match_following ia os l
                end) as ->.
  { destruct e; auto using match_explicit_app, match_following_app. }
  destruct (match e with Some e => _ | None => _ end) as [[tuples used]|] eqn:Hm;
    [|done].
  simpl. destruct (take_actions tuples st) as [st1|]; [|done]. simpl.
  destruct used; [|apply IH1].
  assert (∃ v l', l = (v, A) :: l') as (v & l' & ->).
  { destruct e; [by eapply match_explicit_used|by eapply match_following_used]. }
  simpl. by eapply IH2.
Qed.

(** [--] and whatever follows it end in [extras]. *)
Lemma consume_extras_grow items st st' :
  extras st ≠ [] → consume p items st = Return st' → extras st' ≠ [].
Proof.
  intros Hne. apply (consume_inv (λ st, extras st ≠ []) (λ _, True)); try done.
  - intros st0 s _. simpl. by destruct (extras st0).
  - clear. intros ia args st st' _ _ Hne. unfold take_action.
    destruct (action ia.2); [| |done].
    + destruct args as [|a [|??]]; try by intros [= <-].
      intros H. apply bind_Return in H as (v & _ & H).
      apply bind_Return in H as (_ & _ & [= <-]). done.
    + by intros [= <-].
  - clear. induction items as [|[s [| |[[?|] ??]]] items IH]; by constructor.
Qed.

Lemma consume_Dash items s st st' :
  (s, Dash) ∈ items → consume p items st = Return st' → extras st' ≠ [].
Proof.
  intros (l1 & l2 & ->)%list_elem_of_split.
  rewrite consume_app; [|done]. intros H.
  apply bind_Return in H as (st1 & _ & H). rewrite consume_cons in H.
  eapply consume_extras_grow; [|done]. simpl. by destruct (extras st1).
Qed.

Lemma arg_strings_pattern_Dash args items :
  "--" ∈ args → arg_strings_pattern p args = Return items → ("--", Dash) ∈ items.
Proof.
  revert items. induction args as [|s args IH]; intros items; [by intros ?%elem_of_nil|].
  simpl. destruct (String.eqb s "--") eqn:E.
  - apply String.eqb_eq in E as ->. intros _ [= <-]. left.
  - apply String.eqb_neq in E. intros [?|Hin]%elem_of_cons; [done|].
    intros H. apply bind_Return in H as (t & _ & H).
    apply bind_Return in H as (parts & H & [= <-]). right. auto.
Qed.

Lemma arg_strings_pattern_app pre rest :
  "--" ∉ pre →
  arg_strings_pattern p (pre ++ rest) =
  ipre ← arg_strings_pattern p pre;
  irest ← arg_strings_pattern p rest;
  Return (ipre ++ irest)%list.
Proof.
  induction pre as [|s pre IH]; intros Hpre; simpl.
  - by destruct (arg_strings_pattern p rest).
  - apply not_elem_of_cons in Hpre as [Hs Hpre].
    destruct (String.eqb s "--") eqn:E; [by apply String.eqb_eq in E|].
    destruct (_parse_optional p s) as [t|]; [|done]. simpl.
    rewrite IH by done.
    destruct (arg_strings_pattern p pre); [|done]. simpl.
    by destruct (arg_strings_pattern p rest).
Qed.

(** *** What an argument string resolves to *)

Lemma prefix_refl s : String.prefix s s = true.
Proof. induction s as [|c s IH]; simpl; [done|]. by destruct (ascii_dec c c). Qed.

Lemma split1_absent c s : Str.contains c s = false → Str.split1 c s = (s, None).
Proof.
  induction s as [|d s IH]; simpl; [done|].
  intros [-> H]%orb_false_elim. by rewrite IH.
Qed.

Lemma startswith_cons a s b q :
  Str.startswith (String a s) (String b q) = Ascii.eqb b a && Str.startswith s q.
Proof.
  unfold Str.startswith. cbn [String.prefix].
  destruct (ascii_dec b a) as [->|Hne].
  - by rewrite Ascii.eqb_refl.
  - by apply Ascii.eqb_neq in Hne as ->.
Qed.

Lemma startswith_dashes s :
  Str.startswith s "--" = true → ∃ r, s = String "-" (String "-" r).
Proof.
  destruct s as [|a [|b r]]; [done| |].
  - rewrite startswith_cons. intros [_ ?]%andb_prop. done.
  - rewrite !startswith_cons.
    intros [->%Ascii.eqb_eq [->%Ascii.eqb_eq _]%andb_prop]%andb_prop. eauto.
Qed.

Lemma abbreviates_self os : long_option os = true → abbreviates os os = true.
Proof.
  unfold long_option, abbreviates.
  intros [[_ Hlen]%andb_prop Hc%negb_true_iff]%andb_prop.
  rewrite split1_absent by done. cbn [fst].
  rewrite Hlen. apply prefix_refl.
Qed.

Lemma flat_map_singletons {B C} (f : B → bool) (g : B → C) l :
  flat_map (λ x, if f x then [g x] else []) l = map g (List.filter f l).
Proof.
  induction l as [|x l IH]; simpl; [done|]. destruct (f x); simpl; by rewrite IH.
Qed.

Lemma get_option_tuples_single s ia os e :
  two_long_options p → long_option os = true → (2 ≤ String.length s)%nat →
  _get_option_tuples p s = [OptionTuple (Some ia) os e] →
  abbreviates os s = true.
Proof.
  intros Htwo Hos Hlen. unfold _get_option_tuples, abbreviates.
  destruct (Str.startswith s "--") eqn:Hdd.
  - destruct (Str.split1 "=" s) as [written ex] eqn:Hsp. simpl.
    rewrite (flat_map_singletons (λ e, Str.startswith e.1 written)
               (λ e, OptionTuple (Some e.2) e.1 ex)).
    intros Ht.
    assert (OptionTuple (Some ia) os e ∈
              map (λ e, OptionTuple (Some e.2) e.1 ex)
                (List.filter (λ e, Str.startswith e.1 written)
                   (_option_string_actions p))) as Hin by (rewrite Ht; left).
    apply list_elem_of_In, in_map_iff in Hin as ([os' ia'] & [= <- <- <-] & Hin).
    apply filter_In in Hin as [_ Hpre]. simpl in Hpre. rewrite Hpre, andb_true_r.
    apply startswith_dashes in Hdd as [r ->]. simpl in Hsp.
    destruct (Str.split1 "=" r) as [w ex'] eqn:Hr. injection Hsp as <- <-.
    destruct w; [|done]. exfalso.
    apply (f_equal length) in Ht. rewrite length_map in Ht.
    unfold two_long_options in Htwo. simpl in Ht. lia.
  - destruct (Str.startswith s "-") eqn:Hd; [|done].
    rewrite flat_map_concat_map. intros Ht.
    assert (OptionTuple (Some ia) os e ∈
              concat (map (λ e0 : string * (nat * Action),
                if String.eqb e0.1 (substring 0 2 s)
                then [OptionTuple (Some e0.2) e0.1
                        (Some (substring 2 (String.length s - 2) s))]
                else if Str.startswith e0.1 s
                     then [OptionTuple (Some e0.2) e0.1 None] else [])
                (_option_string_actions p))) as Hin by (rewrite Ht; left).
    apply list_elem_of_In, in_concat in Hin as (l & Hl & Hin).
    apply in_map_iff in Hl as ([os' ia'] & <- & _). simpl in Hin.
    exfalso. unfold long_option in Hos.
    apply andb_prop in Hos as [[Hos1 Hos2]%andb_prop _].
    apply startswith_dashes in Hos1 as [r Hr].
    destruct s as [|a [|b s]]; cbn [String.length] in Hlen; [lia..|].
    destruct (String.eqb os' _) eqn:E1.
    + destruct Hin as [[= <- <- <-]|[]]. apply String.eqb_eq in E1.
      rewrite Hr in E1, Hos2. simpl in E1. injection E1 as _ _ ->.
      by destruct s.
    + destruct (Str.startswith os' _) eqn:E2; [|done].
      destruct Hin as [[= <- <- <-]|[]]. rewrite Hr in E2.
      rewrite !startswith_cons in E2.
      apply andb_prop in E2 as [->%Ascii.eqb_eq [->%Ascii.eqb_eq _]%andb_prop].
      rewrite !startswith_cons, !Ascii.eqb_refl in Hdd. by destruct s.
Qed.

Lemma get_option_tuples_entry s ia os e :
  OptionTuple (Some ia) os e ∈ _get_option_tuples p s →
  (os, ia) ∈ _option_string_actions p.
Proof.
  unfold _get_option_tuples.
  destruct (Str.startswith s "--").
  - destruct (Str.split1 "=" s) as [written ex].
    intros ([os' ia'] & Hin & Ht)%list_elem_of_In%in_flat_map.
    simpl in Ht. destruct (Str.startswith os' written); [|done].
    destruct Ht as [[= <- <- <-]|[]]. by apply list_elem_of_In.
  - destruct (Str.startswith s "-"); [|by intros ?%elem_of_nil].
    intros ([os' ia'] & Hin & Ht)%list_elem_of_In%in_flat_map.
    cbn [fst snd] in Ht. destruct (String.eqb os' _).
    + destruct Ht as [[= <- <- <-]|[]]. by apply list_elem_of_In.
    + destruct (Str.startswith os' s); [|done].
      destruct Ht as [[= <- <- <-]|[]]. by apply list_elem_of_In.
Qed.

Lemma parse_optional_entry s ia os e :
  _parse_optional p s = Return (Some (OptionTuple (Some ia) os e)) →
  (os, ia) ∈ _option_string_actions p.
Proof.
  unfold _parse_optional. destruct s as [|c rest]; [done|].
  destruct (negb _); [done|].
  destruct (assoc (String c rest) _) as [ia'|] eqn:Ha.
  { intros [= <- <- <-]. by apply assoc_Some. }
  destruct (String.eqb rest ""); [done|].
  destruct (match Str.split1 "=" (String c rest) with
            | (o, Some e') => _ | (_, None) => None end) as [t|] eqn:Hsp.
  { intros [= ->]. destruct (Str.split1 _ _) as [o [e'|]]; [|done].
    destruct (assoc o _) eqn:Ha'; [|done]. injection Hsp as <- <- <-.
    by apply assoc_Some. }
  destruct (_get_option_tuples p _) as [|t [|t' l]] eqn:Ht.
  - by repeat case_match.
  - intros [= ->]. eapply get_option_tuples_entry. rewrite Ht. left.
  - done.
Qed.

Lemma parse_optional_abbreviates s ia os e :
  two_long_options p → long_option os = true →
  _parse_optional p s = Return (Some (OptionTuple (Some ia) os e)) →
  abbreviates os s = true.
Proof.
  intros Htwo Hos. unfold _parse_optional. destruct s as [|c rest]; [done|].
  destruct (negb _); [done|].
  destruct (assoc (String c rest) _) as [ia'|] eqn:Ha.
  { intros [= <- <- <-]. by apply abbreviates_self. }
  destruct (String.eqb rest "") eqn:Hrest; [done|].
  destruct (match Str.split1 "=" (String c rest) with
            | (o, Some e') => _ | (_, None) => None end) as [t|] eqn:Hsp.
  { intros [= ->]. unfold abbreviates.
    destruct (Str.split1 _ _) as [o [e'|]]; [|done].
    destruct (assoc o _) eqn:Ha'; [|done]. injection Hsp as <- <- <-.
    cbn [fst]. unfold long_option in Hos.
    apply andb_prop in Hos as [[_ ->]%andb_prop _]. apply prefix_refl. }
  destruct (_get_option_tuples p _) as [|t [|t' l]] eqn:Ht.
  - by repeat case_match.
  - intros [= ->]. eapply get_option_tuples_single; [done..| |done].
    apply String.eqb_neq in Hrest. destruct rest; [done|]. simpl. lia.
  - done.
Qed.

End argparse_facts.

(** ** Facts about the namespace *)

Section namespace_facts.

Context (p : ArgumentParser).

(** What one action does to the parser state. *)
Lemma take_action_spec ia args st st' :
  args_ok ia args → take_action ia args st = Return st' →
  seen_actions st' = ia.1 :: seen_actions st
  ∧ extras st' = extras st
  ∧ (∀ d, d ≠ dest ia.2 → namespace st' !! d = namespace st !! d)
  ∧ match action ia.2 with
    | _StoreAction =>
        ∃ s v, args = [s] ∧ _get_value ia.2 s = Return v
               ∧ _check_value ia.2 v = Return tt
               ∧ namespace st' !! dest ia.2 = Some v
    | _StoreConstAction const => namespace st' !! dest ia.2 = Some const
    | _HelpAction => False
    end.
Proof.
  unfold args_ok, take_action, nargs. destruct (action ia.2).
  - intros [s ->] H. apply bind_Return in H as (v & Hv & H).
    apply bind_Return in H as ([] & Hc & [= <-]). simpl.
    repeat split; [by intros; rewrite lookup_insert_ne|].
    exists s, v. by rewrite lookup_insert_eq.
  - intros _ [= <-]. simpl.
    repeat split; [by intros; rewrite lookup_insert_ne|].
    by rewrite lookup_insert_eq.
  - done.
Qed.

(** The namespace the parser starts from. *)
Lemma with_default_other ns a d :
  dest a ≠ d → with_default ns a !! d = ns !! d.
Proof.
  intros Hd. unfold with_default. destruct (default a); [|done].
  destruct (ns !! dest a); [done|]. by rewrite lookup_insert_ne.
Qed.

Lemma with_default_keep ns a d v :
  ns !! d = Some v → with_default ns a !! d = Some v.
Proof.
  intros Hv. unfold with_default. destruct (default a); [|done].
  destruct (ns !! dest a) eqn:E; [done|].
  rewrite lookup_insert_ne; [done|]. intros Heq. rewrite Heq in E. congruence.
Qed.

Lemma defaults_other l ns d :
  Forall (λ a, dest a ≠ d) l → foldl with_default ns l !! d = ns !! d.
Proof.
  intros H. revert ns. induction H as [|a l Ha _ IH]; intros ns; simpl; [done|].
  by rewrite IH, with_default_other.
Qed.

Lemma defaults_keep l ns d v :
  ns !! d = Some v → foldl with_default ns l !! d = Some v.
Proof.
  revert ns. induction l as [|a l IH]; intros ns Hv; simpl; [done|].
  by apply IH, with_default_keep.
Qed.

Lemma defaults_first l1 a l2 ns v :
  ns !! dest a = None → Forall (λ b, dest b ≠ dest a) l1 → default a = Some v →
  foldl with_default ns (l1 ++ a :: l2) !! dest a = Some v.
Proof.
  intros Hns Hl1 Hv. rewrite foldl_app. simpl. apply defaults_keep.
  unfold with_default. rewrite Hv, defaults_other, Hns by done.
  by rewrite lookup_insert_eq.
Qed.

(** The loop over the actions that were not seen. *)
Lemma unseen_actions_other actions seen ns req ns' req' d :
  Forall (λ ia : nat * Action, dest ia.2 ≠ d) actions →
  unseen_actions actions seen ns req = Return (ns', req') →
  ns' !! d = ns !! d.
Proof.
  intros H. revert ns req.
  induction H as [|[i a] l Ha _ IH]; intros ns req; simpl.
  { by intros [= <- <-]. }
  simpl in Ha. destruct (existsb _ seen); [apply IH|].
  destruct (required a); [apply IH|].
  destruct (default a) as [[| | |s]|]; try apply IH.
  destruct (ns !! dest a) as [[| | |s']|]; try apply IH.
  destruct (String.eqb s s'); [|apply IH].
  intros Hb. apply bind_Return in Hb as (v & _ & Hb).
  apply IH in Hb. by rewrite Hb, lookup_insert_ne.
Qed.

Lemma unseen_actions_keep actions seen ns req ns' req' d v :
  Forall (λ ia : nat * Action,
            dest ia.2 = d → type ia.2 = type_None ∨ ∀ s, v ≠ VStr s) actions →
  ns !! d = Some v →
  unseen_actions actions seen ns req = Return (ns', req') →
  ns' !! d = Some v.
Proof.
  intros H. revert ns req.
  induction H as [|[i a] l Ha _ IH]; intros ns req Hv; simpl.
  { by intros [= <- <-]. }
  simpl in Ha. destruct (existsb _ seen); [by apply IH|].
  destruct (required a); [by apply IH|].
  destruct (default a) as [[| | |s]|]; try by apply IH.
  destruct (ns !! dest a) as [[| | |s']|] eqn:Hd; try by apply IH.
  destruct (String.eqb s s') eqn:E; [|by apply IH].
  apply String.eqb_eq in E as <-.
  intros Hb. apply bind_Return in Hb as (w & Hw & Hb).
  apply IH in Hb; [done|].
  destruct (decide (dest a = d)) as [Heq|Hne];
    [|by rewrite lookup_insert_ne].
  rewrite Heq in *. rewrite lookup_insert_eq.
  destruct (Ha eq_refl) as [Ht|Hs]; [|naive_solver].
  unfold _get_value in Hw. rewrite Ht in Hw. congruence.
Qed.


(** The pattern of each argument string comes from [_parse_optional]. *)
Lemma arg_strings_pattern_items args items :
  arg_strings_pattern p args = Return items →
  Forall (λ item : string * pattern,
            item.1 ∈ args
            ∧ match item.2 with
              | O t => _parse_optional p item.1 = Return (Some t)
              | _ => True
              end) items.
Proof.
  revert items. induction args as [|s args IH]; intros items; simpl.
  { intros [= <-]. constructor. }
  destruct (String.eqb s "--").
  { intros [= <-]. constructor; [split; [left|done]|].
    apply Forall_forall. intros [s' pat] (x & [= -> ->] & Hx)%list_elem_of_fmap.
    split; [by right|done]. }
  intros H. apply bind_Return in H as (t & Ht & H).
  apply bind_Return in H as (parts & Hparts & [= <-]).
  constructor.
  { split; [left|]. by destruct t. }
  eapply Forall_impl; [by apply IH|]. intros [s' pat] [Hin Hpat].
  split; [by right|done].
Qed.

End namespace_facts.

(** ** Facts about [Options] *)

Lemma assoc_distinct {B} (l : list (string * B)) s b :
  distinct (map fst l) = true → (s, b) ∈ l → assoc s l = Some b.
Proof.
  induction l as [|[k c] l IH]; simpl; [by intros _ ?%elem_of_nil|].
  intros [Hk Hl]%andb_prop [[= -> ->]|Hin]%elem_of_cons.
  { by rewrite String.eqb_refl. }
  destruct (String.eqb k s) eqn:E; [|by apply IH].
  apply String.eqb_eq in E as ->. apply negb_true_iff in Hk.
  assert (existsb (String.eqb s) (map fst l) = true) as Hex; [|congruence].
  apply existsb_exists. exists s. split; [|apply String.eqb_refl].
  apply in_map_iff. exists (s, b). split; [done|]. by apply list_elem_of_In.
Qed.

Lemma table_intro p s i a :
  _actions p !! i = Some a → s ∈ option_strings a →
  (s, (i, a)) ∈ _option_string_actions p.
Proof.
  intros Hi Hs. unfold _option_string_actions.
  apply list_elem_of_In, in_flat_map. exists (i, a). split.
  - apply list_elem_of_In. by apply (elem_of_lookup_imap_2 pair).
  - apply in_map_iff. exists s. split; [done|]. by apply list_elem_of_In.
Qed.

Lemma two_elements {B} (l : list B) x y : x ∈ l → y ∈ l → x ≠ y → (2 ≤ length l)%nat.
Proof.
  intros (l1 & l2 & ->)%list_elem_of_split Hy Hne.
  rewrite length_app. simpl.
  apply elem_of_app in Hy as [Hy|[?|Hy]%elem_of_cons]; [|done|].
  - destruct l1; [by apply elem_of_nil in Hy|]. simpl. lia.
  - destruct l2; [by apply elem_of_nil in Hy|]. simpl. lia.
Qed.

Section options_facts.

Context (SlurmOptions SnakemakeOptions : list Action).

Abbreviation groups := (SlurmOptions ++ SnakemakeOptions)%list.
Abbreviation parser := (Options SlurmOptions SnakemakeOptions NAME).
Abbreviation first_index := (S (length groups)).

Lemma actions_add_options group p :
  _actions (add_options group p) = (_actions p ++ group)%list.
Proof.
  unfold add_options. revert p.
  induction group as [|a l IH]; intros p; simpl; [by rewrite app_nil_r|].
  rewrite IH. simpl. by rewrite <- app_assoc.
Qed.

Lemma actions_Options prog :
  _actions (Options SlurmOptions SnakemakeOptions prog)
  = help_action :: (groups ++ pipeline_arguments)%list.
Proof.
  unfold Options. simpl. rewrite !actions_add_options. simpl.
  by rewrite <- !app_assoc.
Qed.

(** An action of the parser is the help flag, an argument of the two
    groups, or one of the five arguments of [Options]. *)
Lemma action_cases i a :
  _actions parser !! i = Some a →
  (i = 0%nat ∧ a = help_action)
  ∨ a ∈ groups
  ∨ ∃ k, i = (first_index + k)%nat ∧ pipeline_arguments !! k = Some a.
Proof.
  rewrite actions_Options. destruct i as [|i]; simpl.
  { intros [= <-]. by left. }
  intros [H|[Hlen H]]%lookup_app_Some; right.
  - left. by eapply list_elem_of_lookup_2.
  - right. exists (i - length groups)%nat. split; [lia|done].
Qed.

Lemma pipeline_action k a :
  pipeline_arguments !! k = Some a → _actions parser !! (first_index + k)%nat = Some a.
Proof.
  intros H. rewrite actions_Options. simpl.
  rewrite lookup_app_r by lia. by replace (length groups + k - length groups)%nat with k by lia.
Qed.

Lemma pipeline_dest k a :
  pipeline_arguments !! k = Some a → dest a ∈ pipeline_dests.
Proof.
  unfold pipeline_dests.
  destruct k as [|[|[|[|[|k]]]]]; intros [= <-]; simpl; set_solver.
Qed.

Lemma pipeline_dest_inj k a k' a' :
  pipeline_arguments !! k = Some a → pipeline_arguments !! k' = Some a' →
  dest a = dest a' → k = k'.
Proof.
  destruct k as [|[|[|[|[|k]]]]]; intros [= <-];
    destruct k' as [|[|[|[|[|k']]]]]; intros [= <-]; done.
Qed.

Hypothesis Hok : groups_ok SlurmOptions SnakemakeOptions = true.

Lemma parser_conflict_free : conflict_free parser = true.
Proof. by apply andb_prop in Hok as [? _]. Qed.

Lemma groups_dest a : a ∈ groups → dest a ∉ pipeline_dests.
Proof.
  apply andb_prop in Hok as [_ H]. rewrite forallb_forall in H.
  intros Ha%list_elem_of_In%H Hin. apply negb_true_iff in Ha.
  assert (existsb (String.eqb (dest a)) pipeline_dests = true); [|congruence].
  apply existsb_exists. exists (dest a). split; [by apply list_elem_of_In|].
  apply String.eqb_refl.
Qed.

(** Who writes an attribute of the pipeline arguments is that argument. *)
Lemma dest_unique i a k b :
  _actions parser !! i = Some a → pipeline_arguments !! k = Some b →
  dest a = dest b → i = (first_index + k)%nat ∧ a = b.
Proof.
  intros Hi Hk Hd. pose proof (pipeline_dest _ _ Hk) as Hin.
  apply action_cases in Hi as [[-> ->]|[Ha|(k' & -> & Hk')]].
  - rewrite <- Hd in Hin. unfold pipeline_dests in Hin. simpl in Hin.
    repeat (apply elem_of_cons in Hin as [Hin|Hin]; [discriminate|]).
    by apply elem_of_nil in Hin.
  - exfalso. apply groups_dest in Ha. by rewrite Hd in Ha.
  - assert (k' = k) as -> by eauto using pipeline_dest_inj.
    split; [done|congruence].
Qed.

Lemma table_pipeline k b s :
  pipeline_arguments !! k = Some b → s ∈ option_strings b →
  assoc s (_option_string_actions parser) = Some ((first_index + k)%nat, b).
Proof.
  intros Hk Hs. apply assoc_distinct; [apply parser_conflict_free|].
  apply table_intro; [by apply pipeline_action|done].
Qed.

Lemma parser_two_long_options : two_long_options parser.
Proof.
  unfold two_long_options.
  apply (two_elements _ ("--help", (0%nat, help_action))
           ("--run-mode", ((first_index + 0)%nat, run_mode_argument))).
  - apply list_elem_of_In, filter_In. split; [|by vm_compute].
    apply list_elem_of_In, table_intro; [by rewrite actions_Options|].
    set_solver.
  - apply list_elem_of_In, filter_In. split; [|by vm_compute].
    apply list_elem_of_In, table_intro; [by apply pipeline_action|].
    set_solver.
  - done.
Qed.

(** *** A call of [parse_args] that returns *)

Lemma parse_args_Return args ns :
  parse_args parser args = Return ns →
  ∃ items st,
    arg_strings_pattern parser args = Return items
    ∧ consume parser items (start parser) = Return st
    ∧ unseen_actions (imap pair (_actions parser)) (seen_actions st)
        (namespace st) [] = Return (ns, [])
    ∧ extras st = [].
Proof.
  unfold parse_args, parse_known_args. intros H.
  apply bind_Return in H as ([ns' argv] & H & Hargv).
  destruct argv; [injection Hargv as ->|done].
  apply bind_Return in H as (items & Hitems & H).
  apply bind_Return in H as (st & Hst & H).
  apply bind_Return in H as ([ns'' req] & Hreq & H).
  destruct req; [|done]. injection H as -> Hex. eauto 10.
Qed.

Lemma items_declared args items :
  arg_strings_pattern parser args = Return items →
  Forall (item_Q (declared parser)) items.
Proof.
  intros H%arg_strings_pattern_items. eapply Forall_impl; [done|].
  intros [tok [| |[[ia|] os e]]] [_ Hpat]; try done.
  unfold item_Q, declared. simpl in *.
  by apply parse_optional_entry, table_entry in Hpat as [? _].
Qed.

Lemma short_declared c c' ia :
  assoc (String c (String c' "")) (_option_string_actions parser) = Some ia →
  declared parser ia.
Proof. by intros [? _]%assoc_Some%table_entry. Qed.

Lemma initial_default k b v :
  pipeline_arguments !! k = Some b → default b = Some v →
  initial_namespace parser !! dest b = Some v.
Proof.
  intros Hk Hv. unfold initial_namespace.
  pose proof (pipeline_action _ _ Hk) as Hi.
  rewrite <- (take_drop_middle _ _ _ Hi).
  apply defaults_first; [apply lookup_empty| |done].
  apply Forall_forall. intros c (j & Hj)%list_elem_of_lookup Hd.
  apply lookup_take_Some in Hj as [Hj Hlt].
  destruct (dest_unique _ _ _ _ Hj Hk Hd) as [-> _]. lia.
Qed.

(** *** An argument the list does not give *)

Section not_given.

Context (k : nat) (b : Action) (os : string) (args : list string).
Hypothesis Hk : pipeline_arguments !! k = Some b.
Hypothesis Hos : option_strings b = [os].
Hypothesis Hlong : long_option os = true.
Hypothesis Hargs : gives os args = false.

Lemma entry_other tok ia os' e :
  tok ∈ args →
  _parse_optional parser tok = Return (Some (OptionTuple (Some ia) os' e)) →
  other parser (first_index + k)%nat ia.
Proof.
  intros Htok Hpat. pose proof (parse_optional_entry _ _ _ _ _ Hpat) as Hin.
  apply table_entry in Hin as [Hi Hs]. split; [done|]. intros Heq.
  rewrite Heq, (pipeline_action _ _ Hk) in Hi. injection Hi as Hb.
  rewrite <- Hb, Hos in Hs. apply list_elem_of_singleton in Hs as ->.
  apply parse_optional_abbreviates in Hpat;
    [|apply parser_two_long_options|done].
  assert (gives os args = true); [|congruence].
  apply existsb_exists. exists tok. split; [by apply list_elem_of_In|done].
Qed.

Lemma items_other items :
  arg_strings_pattern parser args = Return items →
  Forall (item_Q (other parser (first_index + k)%nat)) items.
Proof.
  intros H%arg_strings_pattern_items. eapply Forall_impl; [done|].
  intros [tok [| |[[ia|] os' e]]] [Htok Hpat]; try done.
  unfold item_Q. simpl in *. by eapply entry_other.
Qed.

Lemma short_other c c' ia :
  assoc (String c (String c' "")) (_option_string_actions parser) = Some ia →
  other parser (first_index + k)%nat ia.
Proof.
  intros [Hi Hs]%assoc_Some%table_entry. split; [done|]. intros Heq.
  rewrite Heq, (pipeline_action _ _ Hk) in Hi. injection Hi as Hb.
  rewrite <- Hb, Hos in Hs. apply list_elem_of_singleton in Hs as <-.
  unfold long_option in Hlong.
  by apply andb_prop in Hlong as [[_ ?]%andb_prop _].
Qed.

Lemma other_dest ia :
  other parser (first_index + k)%nat ia → dest ia.2 ≠ dest b.
Proof. intros [Hi Hne] Hd. by eapply Hne, dest_unique. Qed.


(** The attribute keeps its default. *)
Lemma not_given_default v ns :
  default b = Some v → (type b = type_None ∨ ∀ s, v ≠ VStr s) →
  parse_args parser args = Return ns → ns !! dest b = Some v.
Proof.
  intros Hv Hty (items & st & Hitems & Hst & Hns & _)%parse_args_Return.
  eapply unseen_actions_keep; [|..|done].
  - apply Forall_forall. intros [i a] (j & c & [= -> ->] & Hj)%elem_of_lookup_imap.
    simpl. intros Hd. by destruct (dest_unique _ _ _ _ Hj Hk Hd) as [_ ->].
  - revert Hst. apply (consume_inv parser
      (λ st, namespace st !! dest b = Some v)
      (other parser (first_index + k)%nat)).
    + done.
    + intros ia a st0 st' Hia Ha Hinv Hact.
      apply take_action_spec in Hact as (_ & _ & Hframe & _); [|done].
      rewrite Hframe; [done|]. by intros ?; eapply other_dest.
    + apply short_other.
    + by apply items_other.
    + by apply (initial_default k).
Qed.


End not_given.

(** *** What every returned namespace satisfies *)



(** An attribute nothing declares is not in the namespace. *)
Lemma parse_args_undeclared d args ns :
  Forall (λ a, dest a ≠ d) (_actions parser) →
  parse_args parser args = Return ns → ns !! d = None.
Proof.
  intros Hd (items & st & Hitems & Hst & Hns & _)%parse_args_Return.
  assert (namespace st !! d = None) as Hst'.
  { revert Hst.
    apply (consume_inv parser (λ st, namespace st !! d = None) (declared parser)).
    - done.
    - intros [i a] args0 st0 st' Hia Ha Hinv Hact.
      apply take_action_spec in Hact as (_ & _ & Hframe & _); [|done].
      rewrite Hframe; [done|]. intros ->.
      rewrite Forall_lookup in Hd. by eapply Hd.
    - apply short_declared.
    - by apply (items_declared args).
    - simpl. unfold initial_namespace. by rewrite defaults_other. }
  rewrite <- Hst'. eapply unseen_actions_other; [|done].
  apply Forall_forall. intros [i a] (j & c & [= -> ->] & Hj)%elem_of_lookup_imap.
  simpl. rewrite Forall_lookup in Hd. by eapply Hd.
Qed.

Lemma no_action_writes d :
  d ∉ pipeline_dests → d ≠ "help" → Forall (λ a, dest a ≠ d) groups →
  Forall (λ a, dest a ≠ d) (_actions parser).
Proof.
  intros Hp Hh Hg. apply Forall_lookup. intros i a Hi.
  apply action_cases in Hi as [[_ ->]|[Ha|(k & _ & Hk)]].
  - by intros <-.
  - rewrite Forall_forall in Hg. by apply Hg.
  - intros <-. by apply Hp, (pipeline_dest k).
Qed.

(** *** A value the argument refuses *)

Lemma parse_optional_exact s ia :
  Str.startswith s "-" = true →
  assoc s (_option_string_actions parser) = Some ia →
  _parse_optional parser s = Return (Some (OptionTuple (Some ia) s None)).
Proof.
  intros Hs Ha. unfold _parse_optional. destruct s as [|c rest]; [done|].
  rewrite startswith_cons in Hs. apply andb_prop in Hs as [<-%Ascii.eqb_eq _].
  rewrite Ascii.eqb_refl. cbn [negb]. by rewrite Ha.
Qed.


Lemma long_option_dash os : long_option os = true → Str.startswith os "-" = true.
Proof.
  unfold long_option. intros [[(r & ->)%startswith_dashes _]%andb_prop _]%andb_prop.
  by rewrite startswith_cons, Ascii.eqb_refl.
Qed.

Lemma long_option_not_dashes os : long_option os = true → String.eqb os "--" = false.
Proof.
  unfold long_option. intros [[_ Hlen]%andb_prop _]%andb_prop.
  apply String.eqb_neq. by intros ->.
Qed.


End options_facts.

(** ** The patch *)

Lemma get_path_insert_ne path name n (cfg : gmap string node) :
  head path ≠ Some name → path ≠ [] →
  get_path path (Mapping (<[name := n]> cfg)) = get_path path (Mapping cfg).
Proof.
  destruct path as [|x path]; [done|]. simpl. intros Hx _.
  rewrite lookup_insert_ne; [done|]. congruence.
Qed.

Lemma untouched_cases path :
  untouched path →
  ∃ x path', path = x :: path' ∧ x ≠ "input_directory"
    ∧ (x = "bcl2fastq" → ∃ y path'', path' = y :: path'' ∧ y ≠ "threads").
Proof.
  intros H.
  destruct (H ["input_directory"]) as [H1 H1']; [left|].
  destruct (H ["bcl2fastq"; "threads"]) as [H2 H2']; [right; left|].
  destruct path as [|x path'].
  { destruct H1'. apply prefix_nil. }
  exists x, path'. split; [done|]. split.
  { intros ->. apply H1. by apply prefix_cons, prefix_nil. }
  intros ->. destruct path' as [|y path''].
  { destruct H2'. by apply prefix_cons, prefix_nil. }
  exists y, path''. split; [done|]. intros ->.
  apply H2. by do 2 apply prefix_cons; apply prefix_nil.
Qed.

(** The patch leaves every other field as it was, whether it completes or
    raises. *)
Lemma patch_untouched options cwd cfg path :
  untouched path →
  get_path path (Mapping (patch options cwd cfg).1) = get_path path (Mapping cfg).
Proof.
  intros (x & path' & -> & Hx & Hb)%untouched_cases.
  unfold patch, set_input_directory, set_threads.
  destruct (options !! "bcl_directory") as [[| | |p]|]; try done.
  assert (get_path (x :: path')
            (Mapping (<["input_directory" :=
                          Scalar (VStr (posixpath.abspath cwd p))]> cfg))
          = get_path (x :: path') (Mapping cfg)) as Hin
    by (apply get_path_insert_ne; simpl; congruence).
  destruct (options !! "threads") as [threads|]; [|done].
  destruct (<["input_directory" := _]> cfg !! "bcl2fastq")
    as [[| |bcl2fastq]|] eqn:Hsec; try done.
  cbn [fst]. rewrite <- Hin.
  destruct (decide (x = "bcl2fastq")) as [->|Hne].
  - destruct (Hb eq_refl) as (y & path'' & -> & Hy).
    cbn [get_path]. rewrite lookup_insert_eq, Hsec. simpl.
    by rewrite lookup_insert_ne.
  - apply get_path_insert_ne; simpl; congruence.
Qed.

(** When the patch completes, the two fields hold what the options and
    the working directory determine. *)
Lemma patch_completes options cwd cfg cfg' :
  patch options cwd cfg = (cfg', None) →
  ∃ path threads,
    options !! "bcl_directory" = Some (VStr path)
    ∧ options !! "threads" = Some threads
    ∧ patched_fields cfg'
      = (Some (Scalar (VStr (posixpath.abspath cwd path))), Some (Scalar threads)).
Proof.
  unfold patch, set_input_directory, set_threads.
  destruct (options !! "bcl_directory") as [[| | |p]|]; try done.
  destruct (options !! "threads") as [threads|]; [|done].
  destruct (<["input_directory" := _]> cfg !! "bcl2fastq")
    as [[| |bcl2fastq]|] eqn:Hsec; try done.
  intros [= <-]. exists p, threads. split; [done|]. split; [done|].
  unfold patched_fields. simpl.
  rewrite lookup_insert_ne by done. rewrite lookup_insert_eq.
  rewrite lookup_insert_eq. simpl. by rewrite lookup_insert_eq.
Qed.

(** Without the attribute [bcl_directory], line 90 raises. *)
Lemma patch_AttributeError options cwd cfg :
  options !! "bcl_directory" = None →
  patch options cwd cfg = (cfg, Some (AttributeError "Namespace" "bcl_directory")).
Proof. intros H. unfold patch, set_input_directory. by rewrite H. Qed.


Lemma abspath_absolute cwd cwd' path :
  posixpath.isabs path = true →
  posixpath.abspath cwd path = posixpath.abspath cwd' path.
Proof. intros H. unfold posixpath.abspath. by rewrite H. Qed.

(** ** Runs of [main] *)

Section runs.

Context (SlurmOptions SnakemakeOptions : list Action).
Context (staged_config : Namespace → gmap string node).
Context (manager_raises : call → option exn).

Abbreviation parser := (Options SlurmOptions SnakemakeOptions NAME).
Abbreviation run_main :=
  (main SlurmOptions SnakemakeOptions staged_config manager_raises).



(** A run of an accepted argument list when no argument declares
    [bcl_directory]: line 90 raises [AttributeError], the configuration is
    as staged and [teardown] is not called. *)
Lemma main_AttributeError sys_argv cwd args options :
  no_bcl_directory SlurmOptions SnakemakeOptions = true →
  parse_args parser (argument_list sys_argv args) = Return options →
  manager_raises (PipelineManager options NAME) = None →
  manager_raises setup = None →
  run_main sys_argv cwd args
  = {| calls := [PipelineManager options NAME; setup];
       printed := [];
       config := Some (staged_config options);
       ending := uncaught (AttributeError "Namespace" "bcl_directory") |}.
Proof.
  intros Hbcl Hparse Hnew Hsetup. unfold main. fold (argument_list sys_argv args).
  rewrite Hparse, Hnew, Hsetup, patch_AttributeError; [done|].
  eapply parse_args_undeclared; [|done].
  apply no_action_writes.
  - unfold pipeline_dests. intros Hin.
    repeat (apply elem_of_cons in Hin as [Hin|Hin]; [discriminate|]).
    by apply elem_of_nil in Hin.
  - done.
  - unfold no_bcl_directory in Hbcl. rewrite forallb_forall in Hbcl.
    apply Forall_forall. intros a Ha%list_elem_of_In%Hbcl.
    by apply negb_true_iff, String.eqb_neq in Ha.
Qed.

End runs.

(** ** The claims *)

Section claims.

Context (SlurmOptions SnakemakeOptions : list Action).
Context (staged_config : Namespace → gmap string node).
Context (manager_raises : call → option exn).

Abbreviation the_parser := (Options SlurmOptions SnakemakeOptions NAME).
Abbreviation the_main :=
  (main SlurmOptions SnakemakeOptions staged_config manager_raises).



(** C7.  The options the parser returns hold the defaults of the optional
    arguments the list does not give: [fastqc] for the output directory,
    [*fastq.gz] for the input pattern and 4 for the threads. *)
Theorem options_defaults args options :
  groups_ok SlurmOptions SnakemakeOptions = true →
  parse_args the_parser args = Return options →
  (gives "--output-directory" args = false →
   options !! "outdir" = Some (VStr "fastqc"))
  ∧ (gives "--input-pattern" args = false →
     options !! "input_pattern" = Some (VStr "*fastq.gz"))
  ∧ (gives "--threads" args = false → options !! "threads" = Some (VInt 4)).
Proof.
  intros Hok Hparse. repeat split; intros Hnot.
  - apply (not_given_default _ _ Hok 1 output_directory_argument
             "--output-directory" args); try done. by left.
  - apply (not_given_default _ _ Hok 3 input_pattern_argument
             "--input-pattern" args); try done. by left.
  - apply (not_given_default _ _ Hok 4 threads_argument "--threads" args);
      try done. by right.
Qed.


(** C10.  When the parser rejects the argument list (it prints an error
    line), the process exits with status 2 after the usage message, and no
    call to the manager was made; no other non-zero exit status comes out
    of the parser. *)
Theorem parser_error_status sys_argv cwd args :
  let r := main SlurmOptions SnakemakeOptions staged_config manager_raises
             sys_argv cwd args in
  (∀ e, error_line e ∈ printed r →
        ending r = sys_exit 2
        ∧ printed r = [usage_text stderr; error_line e]
        ∧ calls r = [])
  ∧ (∀ status, ending r = sys_exit status → status ≠ 0 → status = 2).
Proof.
  pose proof (shape_parse_args the_parser (argument_list sys_argv args)) as Hs.
  unfold main. fold (argument_list sys_argv args).
  destruct (parse_args the_parser (argument_list sys_argv args))
    as [options|status out].
  - clear Hs. cbv zeta. split.
    + intros e He. exfalso. repeat case_match; simpl in He;
        by apply elem_of_nil in He.
    + intros status. repeat case_match; simpl; done.
  - cbv zeta. simpl. destruct Hs as [[-> ->]|[-> [e' ->]]]; split.
    + intros e [[=]|?%elem_of_nil]%elem_of_cons. done.
    + by intros status [= <-].
    + intros e [[=]|[[= ->]|?%elem_of_nil]%elem_of_cons]%elem_of_cons; done.
    + by intros status [= <-].
Qed.

(** C4.  Whatever the run, the configuration the patch leaves in memory,
    which is the one [teardown] is called with, agrees with the staged
    configuration on every field other than [input_directory] and
    [bcl2fastq.threads]. *)
Theorem patch_changes_two_fields sys_argv cwd args cfg path :
  let r := the_main sys_argv cwd args in
  config r = Some cfg ∨ teardown cfg ∈ calls r →
  untouched path →
  ∃ options,
    PipelineManager options NAME ∈ calls r
    ∧ get_path path (Mapping cfg)
      = get_path path (Mapping (staged_config options)).
Proof.
  intros r Hcfg Hpath. subst r. revert Hcfg. unfold main.
  destruct (parse_args _ _) as [options|status out].
  2:{ simpl. by intros [?|?%elem_of_nil]. }
  pose proof (patch_untouched options cwd (staged_config options) path Hpath)
    as Hframe.
  assert (∀ c, c ∈ [PipelineManager options NAME; setup] → c ≠ teardown cfg)
    as Hcalls.
  { intros c [->|[->|?%elem_of_nil]%elem_of_cons]%elem_of_cons; done. }
  destruct (manager_raises (PipelineManager options NAME)).
  { simpl. intros [?|[?|?%elem_of_nil]%elem_of_cons]; done. }
  destruct (manager_raises setup).
  { simpl. intros [?|Hin]; [done|]. by destruct (Hcalls _ Hin). }
  destruct (patch options cwd (staged_config options)) as [cfg' [e|]];
    simpl in *; intros Hcfg; exists options; (split; [left|]).
  - destruct Hcfg as [[= <-]|Hin]; [done|]. by destruct (Hcalls _ Hin).
  - destruct Hcfg as [[= <-]|Hin]; [done|].
    apply elem_of_cons in Hin as [?|Hin]; [done|].
    apply elem_of_cons in Hin as [?|Hin]; [done|].
    by apply list_elem_of_singleton in Hin as [= <-].
Qed.


(** C9.  The values of the two patched fields depend on the options and
    on the working directory only: two patches that complete, on whatever
    configurations, leave the same values, namely the absolute form of the
    directory read from the options and the thread count of the options. *)
Theorem patch_deterministic options cwd cfg1 cfg2 cfg1' cfg2' :
  patch options cwd cfg1 = (cfg1', None) →
  patch options cwd cfg2 = (cfg2', None) →
  patched_fields cfg1' = patched_fields cfg2'
  ∧ ∃ path threads,
      options !! "bcl_directory" = Some (VStr path)
      ∧ options !! "threads" = Some threads
      ∧ patched_fields cfg1'
        = (Some (Scalar (VStr (posixpath.abspath cwd path))),
           Some (Scalar threads)).
Proof.
  intros (p1 & t1 & Hp1 & Ht1 & H1)%patch_completes
         (p2 & t2 & Hp2 & Ht2 & H2)%patch_completes.
  split; [|eauto 6]. rewrite H1, H2. congruence.
Qed.

End claims.

(** ** The claims at concrete inputs *)

(** C1: on an accepted argument list, line 90 raises [AttributeError] (the
    parser declares [fastq_directory], not [bcl_directory]); the field
    [input_directory] keeps its staged value and [teardown] is not
    called. *)
Lemma input_directory_not_patched :
  let r := Example.run_main accepted in
  ending r = uncaught (AttributeError "Namespace" "bcl_directory")
  ∧ config r = Some Example.template
  ∧ Example.template !! "input_directory" = Some (Scalar (VStr ""))
  ∧ ∀ c, teardown c ∉ calls r.
Proof.
  vm_compute. repeat split.
  intros c [?|[?|?%elem_of_nil]%elem_of_cons]%elem_of_cons; done.
Qed.

(** C3: for the same reason the field [bcl2fastq.threads] keeps its staged
    value, with [--threads 8] as without [--threads]. *)
Lemma threads_not_patched :
  let staged := get_path ["bcl2fastq"; "threads"] (Mapping Example.template) in
  staged = Some (Scalar (VInt 1))
  ∧ (∀ args, args = accepted ∨ args = take 5 accepted →
       let r := Example.run_main args in
       ending r = uncaught (AttributeError "Namespace" "bcl_directory")
       ∧ (get_path ["bcl2fastq"; "threads"] ∘ Mapping) <$> config r = Some staged).
Proof.
  split; [reflexivity|]. intros args [-> | ->]; by vm_compute.
Qed.





Lemma options_defaults_witness :
  groups_ok Example.SlurmOptions Example.SnakemakeOptions = true
  ∧ ∃ options,
      parse_args Example.parser (take 4 (drop 1 accepted)) = Return options
      ∧ options !! "outdir" = Some (VStr "fastqc")
      ∧ options !! "input_pattern" = Some (VStr "*fastq.gz")
      ∧ options !! "threads" = Some (VInt 4).
Proof.
  split; [reflexivity|].
  destruct (parse_args Example.parser (take 4 (drop 1 accepted)))
    as [options|] eqn:Hparse; [|by vm_compute in Hparse].
  exists options. split; [reflexivity|].
  destruct (options_defaults Example.SlurmOptions Example.SnakemakeOptions
              (take 4 (drop 1 accepted)) options eq_refl Hparse)
    as (H1 & H2 & H3).
  split; [apply H1; reflexivity|]. split; [apply H2; reflexivity|].
  apply H3; reflexivity.
Defined.



Lemma parser_error_status_witness :
  let r := Example.run_main ["variant_calling"; "--run-mode"; "cloud"] in
  error_line (invalid_choice run_mode_argument (VStr "cloud")) ∈ printed r
  ∧ ending r = sys_exit 2.
Proof.
  assert (error_line (invalid_choice run_mode_argument (VStr "cloud"))
          ∈ printed (Example.run_main ["variant_calling"; "--run-mode"; "cloud"]))
    as Hin by (vm_compute; right; left).
  split; [exact Hin|].
  exact (proj1 (proj1 (parser_error_status Example.SlurmOptions
                         Example.SnakemakeOptions Example.staged_config
                         Example.manager_raises [] "/home/user"
                         (Some ["variant_calling"; "--run-mode"; "cloud"]))
                  _ Hin)).
Defined.

Lemma patch_changes_two_fields_witness :
  let r := Example.run_main accepted in
  config r = Some Example.template
  ∧ untouched ["bcl2fastq"; "options"]
  ∧ ∃ options,
      PipelineManager options NAME ∈ calls r
      ∧ get_path ["bcl2fastq"; "options"] (Mapping Example.template)
        = get_path ["bcl2fastq"; "options"]
            (Mapping (Example.staged_config options)).
Proof.
  assert (untouched ["bcl2fastq"; "options"]) as Hpath.
  { intros q [->|[->|?%elem_of_nil]%elem_of_cons]%elem_of_cons;
      [| |done]; split; intros [k Hk]; simplify_eq. }
  split; [by vm_compute|]. split; [exact Hpath|].
  apply (patch_changes_two_fields Example.SlurmOptions Example.SnakemakeOptions
           Example.staged_config Example.manager_raises
           [] "/home/user" (Some accepted) Example.template
           ["bcl2fastq"; "options"]).
  - left. by vm_compute.
  - exact Hpath.
Defined.


Lemma patch_deterministic_witness :
  ∃ cfg1' cfg2',
    patch patched_options "/home/user" Example.template = (cfg1', None)
    ∧ patch patched_options "/home/user" (no_thread_field ∅) = (cfg2', None)
    ∧ patched_fields cfg1' = patched_fields cfg2'.
Proof.
  do 2 eexists. split; [vm_compute; reflexivity|].
  split; [vm_compute; reflexivity|].
  eapply (proj1 (patch_deterministic patched_options "/home/user"
                   Example.template (no_thread_field ∅) _ _ _ _)).
  Unshelve. all: vm_compute; reflexivity.
Defined.

(** ** Further properties

    What the library functions [main] calls do for it, and what the parser
    and [main] do on whole families of argument lists. *)

(** *** [os.path.abspath] and [int] *)

Lemma startswith_nil s : Str.startswith s "" = true.
Proof. by destruct s. Qed.

Lemma append_nil s : "" ++ s = s.
Proof. done. Qed.

Lemma append_String a s t : String a s ++ t = String a (s ++ t).
Proof. done. Qed.

Lemma split_no_sep c s :
  Forall (λ x, Str.contains c x = false) (Str.split c s).
Proof.
  induction s as [|d s IH]; cbn [Str.split].
  { by repeat constructor. }
  destruct (Ascii.eqb c d) eqn:E.
  { by constructor. }
  destruct (Str.split c s) as [|h t]; inversion_clear IH;
    (constructor; [|done]); cbn [Str.contains]; rewrite E; [done|].
  by cbn [orb].
Qed.

Lemma split_app c x r :
  Str.contains c x = false → Str.split c (x ++ String c r) = x :: Str.split c r.
Proof.
  induction x as [|d x IH];
    rewrite ?append_nil, ?append_String; cbn [Str.contains Str.split].
  { by rewrite Ascii.eqb_refl. }
  intros [E H]%orb_false_elim. by rewrite E, IH.
Qed.

Lemma split_id c x : Str.contains c x = false → Str.split c x = [x].
Proof.
  induction x as [|d x IH]; cbn [Str.contains Str.split]; [done|].
  intros [E H]%orb_false_elim. by rewrite E, IH.
Qed.

Lemma join_cons x y l :
  Str.join "/" (x :: y :: l) = x ++ String "/" (Str.join "/" (y :: l)).
Proof. done. Qed.

Lemma split_join l :
  l ≠ [] → Forall (λ x, Str.contains "/" x = false) l →
  Str.split "/" (Str.join "/" l) = l.
Proof.
  induction l as [|x [|y l] IH]; [done| |]; intros _ Hl.
  - apply Forall_cons in Hl as [Hx _]. by apply split_id.
  - apply Forall_cons in Hl as [Hx Hl]. rewrite join_cons, split_app by done.
    by rewrite IH.
Qed.

Lemma component_eqb c :
  component c →
  String.eqb c "" = false ∧ String.eqb c "." = false ∧ String.eqb c ".." = false.
Proof. intros (?&?&?&_). by rewrite !String.eqb_neq. Qed.

Lemma normalize_id n comps acc :
  Forall component comps →
  posixpath.normalize n comps acc = (rev acc ++ comps)%list.
Proof.
  intros H. revert acc. induction H as [|c comps Hc _ IH]; intros acc.
  { cbn [posixpath.normalize]. by rewrite app_nil_r. }
  cbn [posixpath.normalize].
  destruct (component_eqb c Hc) as (-> & -> & ->). cbn [orb negb].
  rewrite IH. cbn [rev]. by rewrite <- app_assoc.
Qed.

Lemma normalize_component n comps acc :
  n ≠ 0%nat → Forall (λ x, Str.contains "/" x = false) comps →
  Forall component acc → Forall component (posixpath.normalize n comps acc).
Proof.
  intros Hn H. revert acc. induction H as [|c comps Hc _ IH]; intros acc Hacc.
  { cbn [posixpath.normalize]. by apply Forall_rev. }
  cbn [posixpath.normalize].
  destruct (String.eqb_spec c ""); [by apply IH|].
  destruct (String.eqb_spec c "."); [by apply IH|]. cbn [orb].
  destruct (String.eqb_spec c "..") as [->|Hne]; cbn [negb orb].
  - destruct n; [done|]. cbn [Nat.eqb andb orb].
    destruct acc as [|last acc]; [by apply IH|].
    apply Forall_cons in Hacc as [Hlast Hacc].
    destruct (component_eqb last Hlast) as (_ & _ & ->). by apply IH.
  - apply IH. by constructor.
Qed.

Lemma normpath_abs x :
  posixpath.isabs x = true →
  let n := if Str.startswith x "//" && negb (Str.startswith x "///")
           then 2%nat else 1%nat in
  posixpath.normpath x
  = slashes n ++ Str.join "/" (posixpath.normalize n (Str.split posixpath.sep x) []).
Proof.
  unfold posixpath.isabs, posixpath.normpath. intros H.
  destruct x as [|a x]; [done|]. cbn [String.eqb]. rewrite H.
  by destruct (Str.startswith (String a x) "//" && negb _).
Qed.

Lemma join_not_sep comps :
  Forall component comps → Str.startswith (Str.join "/" comps) "/" = false.
Proof.
  intros H. destruct H as [|c comps (Hc & _ & _ & Hs) _]; [done|].
  destruct c as [|a c]; [done|]. cbn [Str.contains] in Hs.
  apply orb_false_elim in Hs as [Ha _].
  destruct comps; [cbn [Str.join]|rewrite join_cons, append_String];
    by rewrite startswith_cons, Ha.
Qed.

Lemma normpath_normal n comps :
  n = 1%nat ∨ n = 2%nat → Forall component comps →
  posixpath.normpath (slashes n ++ Str.join "/" comps)
  = slashes n ++ Str.join "/" comps.
Proof.
  intros Hn Hcomps. pose proof (join_not_sep comps Hcomps) as Hj.
  assert (Forall (λ x, Str.contains "/" x = false) comps) as Hsep
    by (eapply Forall_impl; [done|]; by intros c (_&_&_&?)).
  assert (posixpath.normalize n (Str.split "/" (Str.join "/" comps)) [] = comps)
    as Hrun.
  { destruct comps as [|c comps]; [by destruct Hn as [-> | ->]|].
    rewrite split_join by done. by rewrite normalize_id. }
  rewrite normpath_abs.
  - destruct Hn as [-> | ->]; cbn [slashes];
      rewrite ?append_String, ?append_nil, !startswith_cons, ?Hj, ?startswith_nil;
      cbn [Ascii.eqb Bool.eqb andb negb slashes];
      rewrite ?append_String, ?append_nil;
      unfold posixpath.sep; cbn [Str.split Ascii.eqb Bool.eqb];
      cbn [posixpath.normalize String.eqb orb]; by rewrite Hrun.
  - unfold posixpath.isabs.
    destruct Hn as [-> | ->]; cbn [slashes];
      by rewrite ?append_String, startswith_cons, startswith_nil.
Qed.

Lemma normpath_normalized x :
  posixpath.isabs x = true →
  ∃ n comps, (n = 1%nat ∨ n = 2%nat) ∧ Forall component comps
             ∧ posixpath.normpath x = slashes n ++ Str.join "/" comps.
Proof.
  intros Hx. rewrite normpath_abs by done.
  set (n := if _ && _ then 2%nat else 1%nat).
  assert (n = 1%nat ∨ n = 2%nat) as Hn by (subst n; case_match; auto).
  exists n, (posixpath.normalize n (Str.split posixpath.sep x) []).
  split; [done|]. split; [|done].
  apply normalize_component; [lia|apply split_no_sep|constructor].
Qed.

Lemma join_isabs cwd path :
  posixpath.isabs cwd = true → posixpath.isabs (posixpath.join cwd path) = true.
Proof.
  unfold posixpath.isabs, posixpath.join. intros Hcwd.
  destruct (Str.startswith path "/") eqn:Hp; [done|].
  destruct cwd as [|a cwd]; [done|].
  rewrite startswith_cons in Hcwd. apply andb_prop in Hcwd as [Ha _].
  destruct (_ || _); by rewrite append_String, startswith_cons, Ha, startswith_nil.
Qed.

Lemma abspath_normpath cwd path :
  posixpath.isabs cwd = true →
  ∃ x, posixpath.isabs x = true ∧ posixpath.abspath cwd path = posixpath.normpath x.
Proof.
  intros Hcwd. unfold posixpath.abspath.
  destruct (posixpath.isabs path) eqn:Hp; eauto using join_isabs.
Qed.

(** X9.  In a process whose working directory is absolute, the result of
    [abspath] is an absolute normalized path: one or two slashes, then
    components none of which is empty, [.] or [..], joined by slashes. *)
Theorem abspath_normalized cwd path :
  posixpath.isabs cwd = true →
  posixpath.isabs (posixpath.abspath cwd path) = true
  ∧ ∃ comps,
      Forall component comps
      ∧ (posixpath.abspath cwd path = "/" ++ Str.join "/" comps
         ∨ posixpath.abspath cwd path = "//" ++ Str.join "/" comps).
Proof.
  intros (x & Hx & ->)%(abspath_normpath cwd path).
  destruct (normpath_normalized x Hx) as (n & comps & Hn & Hcomps & ->).
  split.
  - unfold posixpath.isabs.
    destruct Hn as [-> | ->]; cbn [slashes];
      by rewrite ?append_String, startswith_cons, startswith_nil.
  - exists comps. split; [done|]. destruct Hn as [-> | ->]; auto.
Qed.

(** X10.  [abspath] is idempotent: applied to its own result, in whatever
    working directory, it gives that result again. *)
Theorem abspath_idempotent cwd cwd' path :
  posixpath.isabs cwd = true →
  posixpath.abspath cwd' (posixpath.abspath cwd path) = posixpath.abspath cwd path.
Proof.
  intros Hcwd.
  destruct (abspath_normalized cwd path Hcwd) as [Habs _].
  unfold posixpath.abspath at 1. rewrite Habs.
  destruct (abspath_normpath cwd path Hcwd) as (x & Hx & ->).
  destruct (normpath_normalized x Hx) as (n & comps & Hn & Hcomps & ->).
  by apply normpath_normal.
Qed.

Lemma abspath_normalized_witness :
  posixpath.abspath "/home/user" "../data/./run1//x" = "/home/data/run1/x"
  ∧ posixpath.isabs (posixpath.abspath "/home/user" "../data/./run1//x") = true.
Proof.
  split; [by vm_compute|].
  exact (proj1 (abspath_normalized "/home/user" "../data/./run1//x" eq_refl)).
Defined.

Lemma abspath_idempotent_witness :
  posixpath.abspath "/tmp" (posixpath.abspath "/home/user" "data/../run1/")
  = posixpath.abspath "/home/user" "data/../run1/".
Proof. exact (abspath_idempotent "/home/user" "/tmp" "data/../run1/" eq_refl). Defined.

(** [int] *)

Lemma int_unfold s :
  PyInt.int s
  = match PyInt.lstrip s with
    | String c s' =>
        if Ascii.eqb c "+" then PyInt.digits 0 false s'
        else if Ascii.eqb c "-" then Z.opp <$> PyInt.digits 0 false s'
        else PyInt.digits 0 false (String c s')
    | EmptyString => PyInt.digits 0 false ""
    end.
Proof.
  unfold PyInt.int.
  destruct (PyInt.lstrip s) as [|[[] [] [] [] [] [] [] []] r]; reflexivity.
Qed.

Lemma digit_value_range c :
  Str.is_digit c = true → 0 ≤ Str.digit_value c ≤ 9.
Proof.
  unfold Str.is_digit, Str.digit_value. cbv zeta.
  intros [H1 H2]%andb_prop. apply Nat.leb_le in H1, H2. lia.
Qed.


Lemma digits_nonneg s acc b z :
  0 ≤ acc → PyInt.digits acc b s = Some z → 0 ≤ z.
Proof.
  revert acc b. induction s as [|a s IH]; intros acc b Hacc; cbn [PyInt.digits].
  { destruct b; [by intros [= <-]|done]. }
  destruct (Str.is_digit a) eqn:Hd.
  { apply IH. pose proof (digit_value_range a Hd). lia. }
  destruct (Ascii.eqb a "_").
  { destruct b; [|done]. destruct s as [|d s']; [done|].
    destruct (Str.is_digit d); [|done]. by apply IH. }
  destruct (b && PyInt.all_space (String a s)); [by intros [= <-]|done].
Qed.

Lemma contains_lstrip c s :
  Str.contains c (PyInt.lstrip s) = true → Str.contains c s = true.
Proof.
  induction s as [|a s IH]; cbn [PyInt.lstrip Str.contains]; [done|].
  destruct (PyInt.is_space a); [|done].
  intros ->%IH. apply orb_true_r.
Qed.

(** X11.  [int] gives a negative number only when the string has a minus
    sign. *)
Theorem int_negative_only_with_minus s z :
  PyInt.int s = Some z → z < 0 → Str.contains "-" s = true.
Proof.
  rewrite int_unfold. intros Hint Hz. apply contains_lstrip.
  destruct (PyInt.lstrip s) as [|c r]; [done|].
  destruct (Ascii.eqb c "+").
  { apply digits_nonneg in Hint; lia. }
  destruct (Ascii.eqb_spec c "-") as [->|_]; [done|].
  apply digits_nonneg in Hint; lia.
Qed.

Lemma int_negative_only_with_minus_witness :
  PyInt.int " -3 " = Some (-3) ∧ Str.contains "-" " -3 " = true.
Proof.
  split; [reflexivity|].
  apply (int_negative_only_with_minus " -3 " (-3)); [reflexivity|lia].
Defined.




(** *** The parser *)

Lemma parse_optional_exit p s status out :
  _parse_optional p s = SystemExit status out →
  ∃ matches, (2 ≤ length matches)%nat ∧ status = 2
    ∧ out = [usage_text stderr; error_line (ambiguous_option s matches)].
Proof.
  unfold _parse_optional. destruct s as [|c rest]; [done|].
  destruct (negb _); [done|]. destruct (assoc _ _); [done|].
  destruct (String.eqb rest ""); [done|].
  destruct (match Str.split1 "=" (String c rest) with
            | (o, Some e') => _ | (_, None) => None end); [done|].
  destruct (_get_option_tuples p _) as [|t [|t' l]];
    [repeat case_match; discriminate|done|].
  intros [= <- <-]. eexists. split; [|done]. simpl. lia.
Qed.

Lemma arg_strings_pattern_exit p args status out :
  arg_strings_pattern p args = SystemExit status out →
  ∃ s matches, s ∈ args ∧ (2 ≤ length matches)%nat ∧ status = 2
    ∧ out = [usage_text stderr; error_line (ambiguous_option s matches)].
Proof.
  induction args as [|a args IH]; cbn [arg_strings_pattern]; [done|].
  destruct (String.eqb a "--"); [done|].
  destruct (_parse_optional p a) as [t|st o] eqn:Ht; simpl.
  - destruct (arg_strings_pattern p args) as [parts|st o]; [done|]. simpl.
    intros [= <- <-]. destruct IH as (s & m & Hin & H); [done|].
    exists s, m. split; [by right|done].
  - intros [= <- <-]. apply parse_optional_exit in Ht as (m & H).
    exists a, m. split; [left|done].
Qed.

Lemma parse_optional_positional p s :
  Str.startswith s "-" = false → _parse_optional p s = Return None.
Proof.
  destruct s as [|c r]; [done|].
  rewrite startswith_cons, startswith_nil, andb_true_r, Ascii.eqb_sym.
  intros Hc. unfold _parse_optional. by rewrite Hc.
Qed.

Lemma not_option_not_dashes s :
  Str.startswith s "-" = false → String.eqb s "--" = false.
Proof. intros Hs. apply String.eqb_neq. intros ->. by vm_compute in Hs. Qed.

Section more_options_facts.

Context (SlurmOptions SnakemakeOptions : list Action).

Abbreviation parser := (Options SlurmOptions SnakemakeOptions NAME).
Abbreviation first_index := (S (length (SlurmOptions ++ SnakemakeOptions))).


Lemma parse_args_double_dash args ns :
  "--" ∈ args → parse_args parser args ≠ Return ns.
Proof.
  intros Hin (items & st & Hitems & Hst & _ & Hex)%parse_args_Return.
  apply (consume_Dash parser items "--") in Hst; [done|].
  by eapply arg_strings_pattern_Dash.
Qed.

Lemma pipeline_argument_shape b :
  b ∈ pipeline_arguments →
  ∃ k os, pipeline_arguments !! k = Some b ∧ option_strings b = [os]
          ∧ long_option os = true ∧ action b = _StoreAction.
Proof.
  intros (k & Hk)%list_elem_of_lookup. exists k.
  destruct k as [|[|[|[|[|k]]]]]; try done; injection Hk as <-;
    eexists; (split; [done|]); (split; [done|]); split; by vm_compute.
Qed.

Hypothesis Hok : groups_ok SlurmOptions SnakemakeOptions = true.

Lemma table_help h :
  h = "-h" ∨ h = "--help" →
  assoc h (_option_string_actions parser) = Some (0%nat, help_action).
Proof.
  intros Hh. apply assoc_distinct; [by apply parser_conflict_free|].
  apply table_intro; [by rewrite actions_Options|].
  destruct Hh as [-> | ->]; [left|right; left].
Qed.

(** A help flag in front: the help is printed, unless a string behind it
    is an ambiguous abbreviation, which is found first. *)
Lemma parse_args_help h rest :
  h = "-h" ∨ h = "--help" →
  parse_args parser (h :: rest) = print_help_and_exit
  ∨ ∃ s matches, s ∈ rest ∧ (2 ≤ length matches)%nat
      ∧ parse_args parser (h :: rest) = error (ambiguous_option s matches).
Proof.
  intros Hh. unfold parse_args, parse_known_args. cbn [arg_strings_pattern].
  assert (String.eqb h "--" = false) as -> by (by destruct Hh as [-> | ->]).
  rewrite (parse_optional_exact _ _ h (0%nat, help_action));
    [|by destruct Hh as [-> | ->]; vm_compute|by apply table_help].
  destruct (arg_strings_pattern parser rest) as [parts|status out] eqn:Hrest.
  - left. cbn [mbind completion_bind]. by rewrite consume_cons.
  - right. apply arg_strings_pattern_exit in Hrest as (s & m & Hin & Hm & -> & ->).
    by exists s, m.
Qed.

(** The value that follows an option is what the namespace holds, when no
    later string names the option again. *)
Lemma parse_args_stores k b os s pre post ns :
  pipeline_arguments !! k = Some b → option_strings b = [os] →
  long_option os = true → action b = _StoreAction →
  Str.startswith s "-" = false → gives os post = false →
  parse_args parser (pre ++ os :: s :: post) = Return ns →
  ∃ v, _get_value b s = Return v ∧ ns !! dest b = Some v.
Proof.
  intros Hk Hos Hlong Hact Hs Hpost Hparse.
  destruct (decide ("--" ∈ pre)) as [Hin|Hnotin].
  { destruct (parse_args_double_dash (pre ++ os :: s :: post) ns); [|done].
    apply elem_of_app. by left. }
  apply parse_args_Return in Hparse as (items & st & Hitems & Hst & Hns & Hex).
  rewrite arg_strings_pattern_app in Hitems by done.
  apply bind_Return in Hitems as (ipre & Hpre & Hitems).
  apply bind_Return in Hitems as (irest & Hrest & [= <-]).
  cbn [arg_strings_pattern] in Hrest.
  rewrite long_option_not_dashes in Hrest by done.
  rewrite (parse_optional_exact _ _ os ((first_index + k)%nat, b)) in Hrest;
    [|by apply long_option_dash
     |apply (table_pipeline _ _ Hok k); [done|rewrite Hos; by left]].
  rewrite not_option_not_dashes, parse_optional_positional in Hrest by done.
  apply bind_Return in Hrest as (t & [= <-] & Hrest).
  apply bind_Return in Hrest as (parts & Hparts & [= <-]).
  apply bind_Return in Hparts as (t' & [= <-] & Hparts).
  apply bind_Return in Hparts as (ipost & Hipost & [= <-]).
  rewrite consume_app in Hst by done.
  apply bind_Return in Hst as (st1 & _ & Hc).
  rewrite consume_cons in Hc.
  unfold match_following, nargs in Hc. cbn [fst snd] in Hc. rewrite Hact in Hc.
  apply bind_Return in Hc as ([tuples used] & [= <- <-] & Hc).
  apply bind_Return in Hc as (st2 & Htake & Hc).
  cbn [take_actions] in Htake.
  apply bind_Return in Htake as (st3 & Htake & [= ->]).
  apply take_action_spec in Htake as (_ & _ & _ & Hstore);
    [|unfold args_ok, nargs; cbn [fst snd]; rewrite Hact; eauto].
  cbn [fst snd] in Hstore. rewrite Hact in Hstore.
  destruct Hstore as (s' & v & [= <-] & Hv & _ & Hst2).
  exists v. split; [done|].
  eapply unseen_actions_keep; [| |exact Hns].
  - apply Forall_forall. intros [i a] (j & c & [= -> ->] & Hj)%elem_of_lookup_imap.
    simpl. intros Hd. destruct (dest_unique _ _ Hok _ _ _ _ Hj Hk Hd) as [_ ->].
    unfold _get_value in Hv. destruct (type b); [by left|right].
    intros s0 ->. by destruct (PyInt.int s).
  - revert Hc. apply (consume_inv parser
      (λ st, namespace st !! dest b = Some v)
      (other parser (first_index + k)%nat)).
    + done.
    + intros ia a st0 st' Hia Ha Hinv Hact'.
      apply take_action_spec in Hact' as (_ & _ & Hframe & _); [|done].
      rewrite Hframe; [done|]. intros Hd. by eapply other_dest.
    + intros c c' ia. by eapply short_other.
    + by eapply items_other.
    + done.
Qed.


End more_options_facts.

Lemma unseen_actions_total actions seen ns req :
  Forall (λ ia : nat * Action,
            existsb (Nat.eqb ia.1) seen = true
            ∨ (required ia.2 = false ∧ convertible ia.2)) actions →
  ∃ ns', unseen_actions actions seen ns req = Return (ns', req).
Proof.
  intros H. revert ns. induction H as [|[i a] l Ha _ IH]; intros ns; simpl.
  { eauto. }
  simpl in Ha. destruct (existsb _ seen); [apply IH|].
  destruct Ha as [?|[-> Hconv]]; [done|].
  destruct (default a) as [[| | |d]|] eqn:Hd; try apply IH.
  destruct (ns !! dest a) as [[| | |d']|]; try apply IH.
  destruct (String.eqb d d'); [|apply IH].
  destruct (Hconv d Hd) as [v ->]. simpl. apply IH.
Qed.

Section usage.

Context (SlurmOptions SnakemakeOptions : list Action).

Abbreviation parser := (Options SlurmOptions SnakemakeOptions NAME).
Abbreviation first_index := (S (length (SlurmOptions ++ SnakemakeOptions))).

Hypothesis Hok : groups_ok SlurmOptions SnakemakeOptions = true.
Hypothesis Hoptional : optional_groups SlurmOptions SnakemakeOptions = true.

Lemma parser_unseen seen ns :
  (first_index + 0)%nat ∈ seen → (first_index + 2)%nat ∈ seen →
  ∃ ns', unseen_actions (imap pair (_actions parser)) seen ns [] = Return (ns', []).
Proof.
  intros Hmode Hfastq. apply unseen_actions_total.
  assert (∀ i, i ∈ seen → existsb (Nat.eqb i) seen = true) as Hseen.
  { intros i Hi. apply existsb_exists. exists i.
    split; [by apply list_elem_of_In|apply Nat.eqb_refl]. }
  apply Forall_forall. intros [i a] (j & c & [= -> ->] & Hj)%elem_of_lookup_imap.
  cbn [fst snd].
  apply action_cases in Hj as [[-> ->]|[Ha|(k & -> & Hk)]].
  - right. split; [done|]. by intros d.
  - right. unfold optional_groups in Hoptional.
    rewrite forallb_forall in Hoptional.
    apply list_elem_of_In, Hoptional, andb_prop in Ha as [Hreq Hconv].
    split; [by apply negb_true_iff|].
    intros d Hd. unfold _get_value. rewrite Hd in Hconv.
    destruct (type c); [eauto|]. destruct (PyInt.int d); [eauto|done].
  - destruct k as [|[|[|[|[|k]]]]]; try done; injection Hk as <-;
      try (left; by apply Hseen);
      right; (split; [done|]); intros d; unfold _get_value; simpl; eauto.
    done.
Qed.

Lemma documented_consume d m :
  m = "local" ∨ m = "slurm" →
  ∃ st,
    consume parser
      [("--fastq-directory",
        O (OptionTuple (Some ((first_index + 2)%nat, fastq_directory_argument))
             "--fastq-directory" None));
       (d, A);
       ("--run-mode",
        O (OptionTuple (Some ((first_index + 0)%nat, run_mode_argument))
             "--run-mode" None));
       (m, A)] (start parser) = Return st
    ∧ seen_actions st = [(first_index + 0)%nat; (first_index + 2)%nat]
    ∧ extras st = [].
Proof.
  intros Hm. eexists. split.
  - rewrite consume_cons. cbn [match_following nargs action fastq_directory_argument snd].
    cbn [mbind completion_bind take_actions take_action action fastq_directory_argument
           snd fst _get_value type _check_value choices].
    rewrite consume_cons. cbn [match_following nargs action run_mode_argument snd].
    cbn [mbind completion_bind take_actions take_action action run_mode_argument
           snd fst _get_value type _check_value choices].
    destruct Hm as [-> | ->]; reflexivity.
  - destruct Hm as [-> | ->]; by split.
Qed.

Lemma documented_pattern d m :
  Str.startswith d "-" = false → m = "local" ∨ m = "slurm" →
  arg_strings_pattern parser ["--fastq-directory"; d; "--run-mode"; m]
  = Return
      [("--fastq-directory",
        O (OptionTuple (Some ((first_index + 2)%nat, fastq_directory_argument))
             "--fastq-directory" None));
       (d, A);
       ("--run-mode",
        O (OptionTuple (Some ((first_index + 0)%nat, run_mode_argument))
             "--run-mode" None));
       (m, A)].
Proof.
  intros Hd Hm. cbn [arg_strings_pattern].
  rewrite (long_option_not_dashes "--fastq-directory") by (by vm_compute).
  rewrite (parse_optional_exact _ _ "--fastq-directory"
             ((first_index + 2)%nat, fastq_directory_argument));
    [|by vm_compute|apply (table_pipeline _ _ Hok 2); [done|left]].
  rewrite (not_option_not_dashes d), (parse_optional_positional _ d) by done.
  rewrite (long_option_not_dashes "--run-mode") by (by vm_compute).
  rewrite (parse_optional_exact _ _ "--run-mode"
             ((first_index + 0)%nat, run_mode_argument));
    [|by vm_compute|apply (table_pipeline _ _ Hok 0); [done|left]].
  assert (Str.startswith m "-" = false) as Hm'
    by (destruct Hm as [-> | ->]; by vm_compute).
  by rewrite (not_option_not_dashes m), (parse_optional_positional _ m).
Qed.

Lemma documented_parse d m :
  Str.startswith d "-" = false → m = "local" ∨ m = "slurm" →
  ∃ options,
    parse_args parser ["--fastq-directory"; d; "--run-mode"; m] = Return options.
Proof.
  intros Hd Hm. unfold parse_args, parse_known_args.
  rewrite documented_pattern by done.
  destruct (documented_consume d m Hm) as (st & Hst & Hseen & Hex).
  unfold start in Hst. cbn [mbind completion_bind]. rewrite Hst.
  cbn [mbind completion_bind].
  destruct (parser_unseen (seen_actions st) (namespace st)) as [ns' ->].
  { rewrite Hseen. left. }
  { rewrite Hseen. right. left. }
  cbn [mbind completion_bind]. rewrite Hex. eauto.
Qed.

Lemma abbreviates_positional os s :
  Str.startswith s "-" = false → Str.startswith os "-" = true →
  abbreviates os s = false.
Proof.
  intros Hs Hos. unfold abbreviates.
  destruct s as [|c r]; [done|].
  rewrite startswith_cons, startswith_nil, andb_true_r in Hs.
  cbn [Str.split1]. destruct (Ascii.eqb "=" c); [done|].
  destruct (Str.split1 "=" r) as [h t]. cbn [fst].
  destruct os as [|a os]; [done|].
  rewrite startswith_cons in Hos. apply andb_prop in Hos as [<-%Ascii.eqb_eq _].
  by rewrite startswith_cons, Ascii.eqb_sym, Hs, andb_false_r.
Qed.

Lemma documented_gives os d m :
  Str.startswith d "-" = false → m = "local" ∨ m = "slurm" →
  os = "--output-directory" ∨ os = "--input-pattern" ∨ os = "--threads" →
  gives os ["--fastq-directory"; d; "--run-mode"; m] = false.
Proof.
  intros Hd Hm Hos. unfold gives. cbn [existsb].
  rewrite (abbreviates_positional os d);
    [|done|by destruct Hos as [-> |[-> | ->]]; vm_compute].
  destruct Hm as [-> | ->]; destruct Hos as [-> |[-> | ->]]; by vm_compute.
Qed.

(** The invocation the usage text documents is accepted, and the
    namespace holds what was given and the defaults. *)
Lemma documented_options d m :
  Str.startswith d "-" = false → m = "local" ∨ m = "slurm" →
  ∃ options,
    parse_args parser ["--fastq-directory"; d; "--run-mode"; m] = Return options
    ∧ options !! "fastq_directory" = Some (VStr d)
    ∧ options !! "run_mode" = Some (VStr m)
    ∧ options !! "outdir" = Some (VStr "fastqc")
    ∧ options !! "input_pattern" = Some (VStr "*fastq.gz")
    ∧ options !! "threads" = Some (VInt 4).
Proof.
  intros Hd Hm. destruct (documented_parse d m Hd Hm) as [options Hparse].
  exists options. split; [done|].
  split.
  { destruct (parse_args_stores _ _ Hok 2 fastq_directory_argument
                "--fastq-directory" d [] ["--run-mode"; m] options)
      as (v & [= <-] & Hv);
      [done|done|by vm_compute|done|done| |done|done].
    destruct Hm as [-> | ->]; by vm_compute. }
  split.
  { destruct (parse_args_stores _ _ Hok 0 run_mode_argument
                "--run-mode" m ["--fastq-directory"; d] [] options)
      as (v & [= <-] & Hv);
      [done|done|by vm_compute|done| |done|done|done].
    destruct Hm as [-> | ->]; by vm_compute. }
  split.
  { apply (not_given_default _ _ Hok 1 output_directory_argument
             "--output-directory" ["--fastq-directory"; d; "--run-mode"; m]);
      [done|done|by vm_compute|apply documented_gives; auto|done|by left|done]. }
  split.
  { apply (not_given_default _ _ Hok 3 input_pattern_argument
             "--input-pattern" ["--fastq-directory"; d; "--run-mode"; m]);
      [done|done|by vm_compute|apply documented_gives; auto|done|by left|done]. }
  apply (not_given_default _ _ Hok 4 threads_argument
           "--threads" ["--fastq-directory"; d; "--run-mode"; m]);
    [done|done|by vm_compute|apply documented_gives; auto|done|by right|done].
Qed.

End usage.

Lemma contains_app c x r : Str.contains c (x ++ String c r) = true.
Proof.
  induction x as [|d x IH]; rewrite ?append_nil, ?append_String;
    cbn [Str.contains].
  - by rewrite Ascii.eqb_refl.
  - rewrite IH. apply orb_true_r.
Qed.

Lemma split1_app c x r :
  Str.contains c x = false → Str.split1 c (x ++ String c r) = (x, Some r).
Proof.
  induction x as [|d x IH]; rewrite ?append_nil, ?append_String;
    cbn [Str.contains Str.split1].
  - by rewrite Ascii.eqb_refl.
  - intros [E H]%orb_false_elim. by rewrite E, IH.
Qed.

Lemma match_explicit_store p ia os e following :
  action ia.2 = _StoreAction →
  match_explicit p ia os e following = Return ([(ia, [e], os)], false).
Proof. intros Hact. destruct e; simpl; unfold nargs; by rewrite Hact. Qed.

Section equals.

Context (SlurmOptions SnakemakeOptions : list Action).

Abbreviation parser := (Options SlurmOptions SnakemakeOptions NAME).
Abbreviation first_index := (S (length (SlurmOptions ++ SnakemakeOptions))).

Hypothesis Hok : groups_ok SlurmOptions SnakemakeOptions = true.
Hypothesis Hne : no_equals_sign SlurmOptions SnakemakeOptions = true.

Lemma table_no_equals o ia :
  (o, ia) ∈ _option_string_actions parser → Str.contains "=" o = false.
Proof.
  intros [Hi Ho]%table_entry.
  apply action_cases in Hi as [[_ Ha]|[Ha|(k & _ & Hk)]].
  - rewrite Ha in Ho.
    repeat (apply elem_of_cons in Ho as [->|Ho]; [by vm_compute|]).
    by apply elem_of_nil in Ho.
  - unfold no_equals_sign in Hne. rewrite forallb_forall in Hne.
    apply list_elem_of_In, Hne in Ha. rewrite forallb_forall in Ha.
    apply list_elem_of_In, Ha in Ho. by apply negb_true_iff.
  - destruct k as [|[|[|[|[|k]]]]]; try done; injection Hk as Hk;
      rewrite <- Hk in Ho;
      repeat (apply elem_of_cons in Ho as [->|Ho]; [by vm_compute|]);
      by apply elem_of_nil in Ho.
Qed.

Lemma parse_optional_equals k b os s :
  pipeline_arguments !! k = Some b → option_strings b = [os] →
  long_option os = true →
  _parse_optional parser (os ++ String "=" s)
  = Return (Some (OptionTuple (Some ((first_index + k)%nat, b)) os (Some s))).
Proof.
  intros Hk Hos Hlong.
  assert (assoc os (_option_string_actions parser)
          = Some ((first_index + k)%nat, b)) as Hassoc
    by (apply (table_pipeline _ _ Hok k); [done|rewrite Hos; left]).
  assert (Str.contains "=" os = false) as Heq
    by (apply assoc_Some, table_no_equals in Hassoc; done).
  assert (assoc (os ++ String "=" s) (_option_string_actions parser) = None)
    as Hnone.
  { destruct (assoc (os ++ String "=" s) _) as [ia|] eqn:Hx; [|done].
    apply assoc_Some, table_no_equals in Hx. by rewrite contains_app in Hx. }
  unfold long_option in Hlong.
  apply andb_prop in Hlong as [[(r & Hr)%startswith_dashes _]%andb_prop _].
  unfold _parse_optional.
  destruct (os ++ String "=" s) as [|c rest] eqn:Hx.
  { rewrite Hr, append_String in Hx. done. }
  assert (c = "-"%char ∧ ∃ rest', rest = String "-" rest') as (-> & rest' & ->).
  { rewrite Hr, !append_String in Hx. injection Hx as <- <-. eauto. }
  rewrite Ascii.eqb_refl. cbn [negb]. rewrite Hnone. cbn [String.eqb].
  rewrite <- Hx, split1_app by done. by rewrite Hassoc.
Qed.

(** The value an option is given after an equals sign is what the
    namespace holds, when no later string names the option again. *)
Lemma parse_args_stores_equals k b os s pre post ns :
  pipeline_arguments !! k = Some b → option_strings b = [os] →
  long_option os = true → action b = _StoreAction →
  gives os post = false →
  parse_args parser (pre ++ (os ++ String "=" s) :: post) = Return ns →
  ∃ v, _get_value b s = Return v ∧ ns !! dest b = Some v.
Proof.
  intros Hk Hos Hlong Hact Hpost Hparse.
  destruct (decide ("--" ∈ pre)) as [Hin|Hnotin].
  { destruct (parse_args_double_dash SlurmOptions SnakemakeOptions
                (pre ++ (os ++ String "=" s) :: post) ns); [|done].
    apply elem_of_app. by left. }
  apply parse_args_Return in Hparse as (items & st & Hitems & Hst & Hns & Hex).
  rewrite arg_strings_pattern_app in Hitems by done.
  apply bind_Return in Hitems as (ipre & Hpre & Hitems).
  apply bind_Return in Hitems as (irest & Hrest & [= <-]).
  cbn [arg_strings_pattern] in Hrest.
  assert (String.eqb (os ++ String "=" s) "--" = false) as Hdd.
  { apply String.eqb_neq. intros Hx.
    pose proof (contains_app "=" os s) as Hc. rewrite Hx in Hc. by vm_compute in Hc. }
  rewrite Hdd, (parse_optional_equals k b) in Hrest by done.
  apply bind_Return in Hrest as (t & [= <-] & Hrest).
  apply bind_Return in Hrest as (ipost & Hipost & [= <-]).
  rewrite consume_app in Hst by done.
  apply bind_Return in Hst as (st1 & _ & Hc).
  rewrite consume_cons, match_explicit_store in Hc by done.
  apply bind_Return in Hc as ([tuples used] & [= <- <-] & Hc).
  apply bind_Return in Hc as (st2 & Htake & Hc).
  cbn [take_actions] in Htake.
  apply bind_Return in Htake as (st3 & Htake & [= ->]).
  apply take_action_spec in Htake as (_ & _ & _ & Hstore);
    [|unfold args_ok, nargs; cbn [fst snd]; rewrite Hact; eauto].
  cbn [fst snd] in Hstore. rewrite Hact in Hstore.
  destruct Hstore as (s' & v & [= <-] & Hv & _ & Hst2).
  exists v. split; [done|].
  eapply unseen_actions_keep; [| |exact Hns].
  - apply Forall_forall. intros [i a] (j & c & [= -> ->] & Hj)%elem_of_lookup_imap.
    simpl. intros Hd. destruct (dest_unique _ _ Hok _ _ _ _ Hj Hk Hd) as [_ ->].
    unfold _get_value in Hv. destruct (type b); [by left|right].
    intros s0 ->. by destruct (PyInt.int s).
  - revert Hc. apply (consume_inv parser
      (λ st, namespace st !! dest b = Some v)
      (other parser (first_index + k)%nat)).
    + done.
    + intros ia a st0 st' Hia Ha Hinv Hact'.
      apply take_action_spec in Hact' as (_ & _ & Hframe & _); [|done].
      rewrite Hframe; [done|]. intros Hd. by eapply other_dest.
    + intros c c' ia. by eapply short_other.
    + by eapply items_other.
    + done.
Qed.

End equals.

(** *** The program *)

Section further_properties.

Context (SlurmOptions SnakemakeOptions : list Action).
Context (staged_config : Namespace → gmap string node).
Context (manager_raises : call → option exn).

(** X1.  When no declared argument writes [bcl_directory], no run of
    [main] returns: it ends in the parser, in an exception of the manager,
    or at line 90.  [teardown] is never called, and the configuration in
    memory, if there is one, is the staged one. *)
Theorem main_never_completes sys_argv cwd args :
  no_bcl_directory SlurmOptions SnakemakeOptions = true →
  let r := main SlurmOptions SnakemakeOptions staged_config manager_raises
             sys_argv cwd args in
  ending r ≠ returned
  ∧ (∀ cfg, teardown cfg ∉ calls r)
  ∧ (∀ cfg, config r = Some cfg → ∃ options, cfg = staged_config options).
Proof.
  intros Hbcl r. subst r.
  destruct (parse_args (Options SlurmOptions SnakemakeOptions NAME)
              (argument_list sys_argv args)) as [options|status out] eqn:Hparse.
  - destruct (manager_raises (PipelineManager options NAME)) as [e|] eqn:Hnew;
      [|destruct (manager_raises setup) as [e|] eqn:Hsetup].
    + unfold main. fold (argument_list sys_argv args). rewrite Hparse, Hnew.
      simpl. repeat split; [done| |done].
      by intros cfg [?|?%elem_of_nil]%elem_of_cons.
    + unfold main. fold (argument_list sys_argv args).
      rewrite Hparse, Hnew, Hsetup. simpl. repeat split; [done| |done].
      by intros cfg [?|[?|?%elem_of_nil]%elem_of_cons]%elem_of_cons.
    + rewrite (main_AttributeError _ _ _ _ _ _ _ options) by done.
      simpl. repeat split; [done| |].
      * by intros cfg [?|[?|?%elem_of_nil]%elem_of_cons]%elem_of_cons.
      * intros cfg [= <-]. eauto.
  - unfold main. fold (argument_list sys_argv args). rewrite Hparse.
    simpl. repeat split; [done| |done]. by intros cfg ?%elem_of_nil.
Qed.

(** X2.  With [-h] or [--help] in front, the run ends before any call to
    the manager: the help is printed and the exit status is 0, whatever
    follows, except that an ambiguous abbreviation among the strings that
    follow is reported first, with exit status 2. *)
Theorem help_comes_first sys_argv cwd args h rest :
  groups_ok SlurmOptions SnakemakeOptions = true →
  argument_list sys_argv args = h :: rest → h = "-h" ∨ h = "--help" →
  let r := main SlurmOptions SnakemakeOptions staged_config manager_raises
             sys_argv cwd args in
  calls r = []
  ∧ ((ending r = sys_exit 0 ∧ printed r = [help_text stdout])
     ∨ ∃ s matches,
         s ∈ rest ∧ (2 ≤ length matches)%nat ∧ ending r = sys_exit 2
         ∧ printed r = [usage_text stderr;
                        error_line (ambiguous_option s matches)]).
Proof.
  intros Hok Hargs Hh r. subst r. unfold main.
  fold (argument_list sys_argv args). rewrite Hargs.
  destruct (parse_args_help _ _ Hok h rest Hh) as [-> |(s & m & Hs & Hm & ->)].
  - simpl. split; [done|]. by left.
  - simpl. split; [done|]. right. by exists s, m.
Qed.


(** X4.  The string that follows the option of an argument of [Options]
    is what the namespace holds under the argument's [dest], converted by
    its [type], when no later string names the option again. *)
Theorem given_value_is_stored b os s pre post options :
  groups_ok SlurmOptions SnakemakeOptions = true →
  b ∈ pipeline_arguments → option_strings b = [os] →
  Str.startswith s "-" = false → gives os post = false →
  parse_args (Options SlurmOptions SnakemakeOptions NAME)
    (pre ++ os :: s :: post) = Return options →
  ∃ v, _get_value b s = Return v ∧ options !! dest b = Some v.
Proof.
  intros Hok (k & os' & Hk & Hos' & Hlong & Hact)%pipeline_argument_shape Hos.
  rewrite Hos in Hos'. injection Hos' as <-.
  by apply (parse_args_stores _ _ Hok k).
Qed.


End further_properties.

Section usage_properties.

Context (SlurmOptions SnakemakeOptions : list Action).
Context (staged_config : Namespace → gmap string node).
Context (manager_raises : call → option exn).

(** X6.  The invocation the usage text documents,
    [--fastq-directory PATH --run-mode local] (or [slurm]), is accepted
    when the arguments of the groups can be left out and the path does not
    start with a dash: the namespace holds the path under
    [fastq_directory], the run mode, and the defaults of the three other
    arguments. *)
Theorem documented_usage_accepted d m :
  groups_ok SlurmOptions SnakemakeOptions = true →
  optional_groups SlurmOptions SnakemakeOptions = true →
  Str.startswith d "-" = false → m = "local" ∨ m = "slurm" →
  ∃ options,
    parse_args (Options SlurmOptions SnakemakeOptions NAME)
      ["--fastq-directory"; d; "--run-mode"; m] = Return options
    ∧ options !! "fastq_directory" = Some (VStr d)
    ∧ options !! "run_mode" = Some (VStr m)
    ∧ options !! "outdir" = Some (VStr "fastqc")
    ∧ options !! "input_pattern" = Some (VStr "*fastq.gz")
    ∧ options !! "threads" = Some (VInt 4).
Proof. intros Hok Hopt. by apply documented_options. Qed.

(** X7.  The documented invocation never succeeds: when the manager
    raises nothing, the run stops after [setup] with the [AttributeError]
    of line 90, the configuration being as staged. *)
Theorem documented_usage_fails sys_argv cwd args d m :
  groups_ok SlurmOptions SnakemakeOptions = true →
  optional_groups SlurmOptions SnakemakeOptions = true →
  no_bcl_directory SlurmOptions SnakemakeOptions = true →
  argument_list sys_argv args = ["--fastq-directory"; d; "--run-mode"; m] →
  Str.startswith d "-" = false → m = "local" ∨ m = "slurm" →
  (∀ c, manager_raises c = None) →
  let r := main SlurmOptions SnakemakeOptions staged_config manager_raises
             sys_argv cwd args in
  ending r = uncaught (AttributeError "Namespace" "bcl_directory")
  ∧ ∃ options,
      options !! "fastq_directory" = Some (VStr d)
      ∧ calls r = [PipelineManager options NAME; setup]
      ∧ config r = Some (staged_config options).
Proof.
  intros Hok Hopt Hbcl Hargs Hd Hm Hmanager r. subst r.
  destruct (documented_options _ _ Hok Hopt d m Hd Hm)
    as (options & Hparse & Hfastq & _).
  rewrite <- Hargs in Hparse.
  rewrite (main_AttributeError _ _ _ _ _ _ _ options) by done.
  simpl. split; [done|]. by exists options.
Qed.

(** X8.  The value written after an equals sign, [--option=value], is
    what the namespace holds under the argument's [dest], converted by its
    [type], when no later string names the option again.  (The value [--]
    is left aside: see [take_action].) *)
Theorem value_after_equals b os s pre post options :
  groups_ok SlurmOptions SnakemakeOptions = true →
  no_equals_sign SlurmOptions SnakemakeOptions = true →
  b ∈ pipeline_arguments → option_strings b = [os] →
  s ≠ "--" → gives os post = false →
  parse_args (Options SlurmOptions SnakemakeOptions NAME)
    (pre ++ (os ++ "=" ++ s) :: post) = Return options →
  ∃ v, _get_value b s = Return v ∧ options !! dest b = Some v.
Proof.
  intros Hok Hne (k & os' & Hk & Hos' & Hlong & Hact)%pipeline_argument_shape
    Hos _. rewrite Hos in Hos'. injection Hos' as <-.
  by apply (parse_args_stores_equals _ _ Hok Hne k).
Qed.

End usage_properties.

(** *** The further properties at concrete inputs *)

Lemma main_never_completes_witness :
  no_bcl_directory Example.SlurmOptions Example.SnakemakeOptions = true
  ∧ ending (Example.run_main accepted) ≠ returned.
Proof.
  split; [reflexivity|].
  exact (proj1 (main_never_completes Example.SlurmOptions Example.SnakemakeOptions
                  Example.staged_config Example.manager_raises
                  [] "/home/user" (Some accepted) eq_refl)).
Defined.

Lemma help_comes_first_witness :
  groups_ok Example.SlurmOptions Example.SnakemakeOptions = true
  ∧ calls (Example.run_main ["variant_calling"; "--help"; "--run-mode"; "cloud"])
    = [].
Proof.
  split; [reflexivity|].
  exact (proj1 (help_comes_first Example.SlurmOptions Example.SnakemakeOptions
                  Example.staged_config Example.manager_raises
                  [] "/home/user"
                  (Some ["variant_calling"; "--help"; "--run-mode"; "cloud"])
                  "--help" ["--run-mode"; "cloud"]
                  eq_refl eq_refl (or_intror eq_refl))).
Defined.


Lemma given_value_is_stored_witness :
  groups_ok Example.SlurmOptions Example.SnakemakeOptions = true
  ∧ ∃ options,
      parse_args Example.parser
        (["--run-mode"; "local"] ++ "--fastq-directory" :: "/data/run1" :: [])
      = Return options
      ∧ options !! "fastq_directory" = Some (VStr "/data/run1").
Proof.
  split; [reflexivity|].
  destruct (parse_args Example.parser
              (["--run-mode"; "local"] ++ "--fastq-directory" :: "/data/run1" :: []))
    as [options|] eqn:Hparse; [|by vm_compute in Hparse].
  exists options. split; [reflexivity|].
  destruct (given_value_is_stored Example.SlurmOptions Example.SnakemakeOptions
              fastq_directory_argument "--fastq-directory" "/data/run1"
              ["--run-mode"; "local"] [] options eq_refl)
    as (v & Hv & Hoptions); [|reflexivity..|exact Hparse|].
  - right; right; left.
  - injection Hv as <-. exact Hoptions.
Defined.


Lemma documented_usage_accepted_witness :
  groups_ok Example.SlurmOptions Example.SnakemakeOptions = true
  ∧ optional_groups Example.SlurmOptions Example.SnakemakeOptions = true
  ∧ ∃ options,
      parse_args Example.parser
        ["--fastq-directory"; "/data/run1"; "--run-mode"; "slurm"]
      = Return options
      ∧ options !! "fastq_directory" = Some (VStr "/data/run1").
Proof.
  split; [reflexivity|]. split; [reflexivity|].
  destruct (documented_usage_accepted Example.SlurmOptions
              Example.SnakemakeOptions "/data/run1" "slurm"
              eq_refl eq_refl eq_refl (or_intror eq_refl))
    as (options & Hparse & Hfastq & _).
  exists options. split; [exact Hparse|exact Hfastq].
Defined.

Lemma documented_usage_fails_witness :
  groups_ok Example.SlurmOptions Example.SnakemakeOptions = true
  ∧ optional_groups Example.SlurmOptions Example.SnakemakeOptions = true
  ∧ no_bcl_directory Example.SlurmOptions Example.SnakemakeOptions = true
  ∧ ending (Example.run_main
              ["variant_calling"; "--fastq-directory"; "data"; "--run-mode"; "local"])
    = uncaught (AttributeError "Namespace" "bcl_directory").
Proof.
  split; [reflexivity|]. split; [reflexivity|]. split; [reflexivity|].
  exact (proj1 (documented_usage_fails Example.SlurmOptions
                  Example.SnakemakeOptions Example.staged_config
                  Example.manager_raises [] "/home/user"
                  (Some ["variant_calling"; "--fastq-directory"; "data";
                         "--run-mode"; "local"])
                  "data" "local" eq_refl eq_refl eq_refl eq_refl eq_refl
                  (or_introl eq_refl) (λ c, eq_refl))).
Defined.

Lemma value_after_equals_witness :
  groups_ok Example.SlurmOptions Example.SnakemakeOptions = true
  ∧ no_equals_sign Example.SlurmOptions Example.SnakemakeOptions = true
  ∧ ∃ options,
      parse_args Example.parser
        (["--run-mode"; "local"; "--fastq-directory"; "data"]
           ++ ("--threads" ++ "=" ++ "-3") :: [])
      = Return options
      ∧ options !! "threads" = Some (VInt (-3)).
Proof.
  split; [reflexivity|]. split; [reflexivity|].
  destruct (parse_args Example.parser
              (["--run-mode"; "local"; "--fastq-directory"; "data"]
                 ++ ("--threads" ++ "=" ++ "-3") :: []))
    as [options|] eqn:Hparse; [|by vm_compute in Hparse].
  exists options. split; [reflexivity|].
  destruct (value_after_equals Example.SlurmOptions Example.SnakemakeOptions
              threads_argument "--threads" "-3"
              ["--run-mode"; "local"; "--fastq-directory"; "data"] [] options
              eq_refl eq_refl)
    as (v & Hv & Hoptions); [|reflexivity|discriminate|reflexivity|exact Hparse|].
  - do 4 right. left.
  - injection Hv as <-. exact Hoptions.
Defined.
